(** * seq2map: the least-squares problem and the Levenberg-Marquardt solver
    of [sources/base/solve.cpp], as a shallow embedding.

    Scalars are the C++ [double]s; they are kept abstract behind the class
    [Scalar], so every statement below holds for any implementation of the
    arithmetic (IEEE-754 included) and equalities between scalars are
    equalities of the same operations applied to the same operands.
    Vectors ([VectorisableD::Vec], [cv::Mat] columns) are lists, a
    [cv::Mat] Jacobian is the list of its columns, the Jacobian pattern is
    the list of its rows.

    OpenCV is taken at version 3.3 or later, whose matrix arithmetic
    refuses empty operands with a [cv::Exception]. *)

From Stdlib Require Import Arith Lia.
From stdpp Require Import base list.

(** Outcome of a computation that may throw a C++ exception ([Throw]) or
    stop the process (undefined behaviour, uncaught exception in a worker
    thread, failed assertion: [Crash]). *)
Inductive outcome (A : Type) : Type :=
| Ok : A -> outcome A
| Throw : outcome A
| Crash : outcome A.
Arguments Ok {A} _.
Arguments Throw {A}.
Arguments Crash {A}.

Definition obind {A B} (o : outcome A) (k : A -> outcome B) : outcome B :=
  match o with
  | Ok a => k a
  | Throw => Throw
  | Crash => Crash
  end.

Notation "x <-- c ; k" := (obind c (fun x => k))
  (at level 65, c at next level, right associativity).

(** The [double] operations the code uses. *)
Class Scalar (R : Type) := {
  s_zero : R;
  s_one : R;
  s_add : R -> R -> R;
  s_sub : R -> R -> R;
  s_mul : R -> R -> R;
  s_div : R -> R -> R;
  s_opp : R -> R;
  s_sqrt : R -> R;
  s_of_nat : nat -> R;
  s_ltb : R -> R -> bool;   (* [<] *)
  s_eqb : R -> R -> bool;   (* [==] *)
  s_isfinite : R -> bool    (* [isfinite] *)
}.

(** [cv::Mat::inv] (LU decomposition in OpenCV), kept abstract. [Solve]
    applies it only to the non-empty square matrix [A] of size [n x n],
    [n] the number of active variables: the product [J.t() * J] throws
    before it when [J] is empty (see [hessian]). On a singular matrix
    OpenCV returns a zero matrix, which is one of the functions the class
    admits. *)
Class MatInv (R : Type) := { mat_inv : list (list R) -> list (list R) }.

Section Problem.
Context {R : Type} `{Scalar R}.

(** [LeastSquaresProblem]: its fields and its two virtual methods. *)
Record LeastSquaresProblem := {
  m_vars : nat;
  m_conds : nat;
  m_varIdx : list nat;
  m_diffStep : R;
  m_diffThreads : nat;
  m_jacobianPattern : list (list nat);  (* rows; [] is the empty matrix *)
  evaluate : list R -> (list R);                (* [operator()(const Vec&)] *)
  SetSolution : list R -> bool
}.

Definition with_varIdx (p : LeastSquaresProblem) (idx : list nat) :=
  {| m_vars := m_vars p; m_conds := m_conds p; m_varIdx := idx;
     m_diffStep := m_diffStep p; m_diffThreads := m_diffThreads p;
     m_jacobianPattern := m_jacobianPattern p; evaluate := evaluate p;
     SetSolution := SetSolution p |}.

(** [cv::Mat::empty()] and [cv::Mat::col] (which asserts the column index). *)
Definition mat_empty (M : list (list nat)) : bool :=
  match M with [] => true | r :: _ => match r with [] => true | _ => false end end.

Definition mat_cols (M : list (list nat)) : nat :=
  match M with [] => 0 | r :: _ => length r end.

Definition mat_col (M : list (list nat)) (c : nat) : outcome (list nat) :=
  if c <? mat_cols M then Ok (map (fun r => nth c r 0) M) else Throw.

(** [JacobianSlice]. *)
Record JacobianSlice := {
  sl_x : list R;
  sl_y : list R;
  sl_var : nat;
  sl_col : nat;                 (* the column [J.col(i)] the slice writes *)
  sl_mask : option (list nat)
}.

(** [cv::Mat(a) - b] for two column vectors ([cv::subtract]): an empty
    operand is refused; operands of the same size are subtracted entry by
    entry; otherwise an operand of size [1x1] or [4x1] (of type
    [CV_64F]) is a scalar, its first entry, the first operand being tried
    first; any other pair of sizes is refused. *)
Definition scalar_like (v : list R) : bool := (length v =? 1) || (length v =? 4).

Definition mat_sub (a b : list R) : outcome (list R) :=
  match a, b with
  | [], _ => Throw
  | _, [] => Throw
  | a0 :: _, b0 :: _ =>
      if length a =? length b then Ok (zip_with s_sub a b)
      else if scalar_like a then Ok (map (fun v => s_sub a0 v) b)
      else if scalar_like b then Ok (map (fun u => s_sub u b0) a)
      else Throw
  end.

(** One iteration of the loop of [DiffThread] on the shared [J]:
    [x.at<double>(var) += dx] (out of range: undefined behaviour),
    [dy = cv::Mat(f(x)) - y] (refused: [cv::Exception] in a worker thread,
    hence [std::terminate]), [cv::divide(dy, dx, slice.col)], which writes
    into [J] when [dy] has the size of the column and reallocates the
    column header (leaving [J] as it was) otherwise. *)
Definition diff_slice (p : LeastSquaresProblem) (J : list (list R))
    (s : JacobianSlice) : outcome (list (list R)) :=
  let dx := m_diffStep p in
  match sl_x s !! sl_var s with
  | None => Crash
  | Some a =>
      let x := <[sl_var s := s_add a dx]> (sl_x s) in
      match mat_sub (evaluate p x) (sl_y s) with
      | Ok dy =>
          let col := map (fun d => s_div d dx) dy in
          if length col =? m_conds p then Ok (<[sl_col s := col]> J) else Ok J
      | Throw | Crash => Crash
      end
  end.

(** [DiffThread]: the slices of one worker, in order. *)
Fixpoint DiffThread (p : LeastSquaresProblem) (J : list (list R))
    (slices : list JacobianSlice) : outcome (list (list R)) :=
  match slices with
  | [] => Ok J
  | s :: ss => J' <-- diff_slice p J s ; DiffThread p J' ss
  end.

(** The loop of [ComputeJacobian] building the per-thread slice lists:
    [threadIdx = i % m_diffThreads] (division by zero: undefined
    behaviour), then the mask column [m_jacobianPattern.col(var)]. *)
Fixpoint make_slices (p : LeastSquaresProblem) (x y : list R) (masking : bool)
    (vars : list nat) (i : nat) (slices : list (list JacobianSlice))
    : outcome (list (list JacobianSlice)) :=
  match vars with
  | [] => Ok slices
  | var :: vs =>
      if m_diffThreads p =? 0 then Crash else
      let threadIdx := i mod m_diffThreads p in
      mask <-- (if masking then c <-- mat_col (m_jacobianPattern p) var ; Ok (Some c)
                else Ok None) ;
      let slice := {| sl_x := x; sl_y := y; sl_var := var; sl_col := i;
                      sl_mask := mask |} in
      make_slices p x y masking vs (S i)
        (alter (fun l => l ++ [slice]) threadIdx slices)
  end.

(** The worker threads write disjoint columns of the shared [J]; the
    result after [join_all] is the one of running them one after another. *)
Fixpoint run_threads (p : LeastSquaresProblem) (J : list (list R))
    (threads : list (list JacobianSlice)) : outcome (list (list R)) :=
  match threads with
  | [] => Ok J
  | t :: ts => J' <-- DiffThread p J t ; run_threads p J' ts
  end.

(** [ComputeJacobian(x, y) const]: [y] is an in/out argument; the problem
    is returned as it was passed, the method being [const]. *)
Definition ComputeJacobian (p : LeastSquaresProblem) (x y : list R)
    : outcome (LeastSquaresProblem * list (list R) * (list R)) :=
  let J := replicate (length (m_varIdx p)) (replicate (m_conds p) s_zero) in
  let masking := negb (mat_empty (m_jacobianPattern p)) in
  let y' := match y with [] => evaluate p x | _ => y end in
  slices <-- make_slices p x y' masking (m_varIdx p) 0 (replicate (m_diffThreads p) []) ;
  J' <-- run_threads p J slices ;
  Ok (p, J', y').

(** The single-threaded reference: column [k] is
    [(f(x + h e_{v_k}) - y) / h], differences taken entry by entry. *)
Definition fd_column (p : LeastSquaresProblem) (x y : list R) (v : nat) : list R :=
  let h := m_diffStep p in
  map (fun d => s_div d h)
    (zip_with s_sub (evaluate p (alter (fun a => s_add a h) v x)) y).

Definition jacobian_reference (p : LeastSquaresProblem) (x y : list R) : list (list R) :=
  map (fd_column p x y) (m_varIdx p).

(** What one slice writes into its column, as a function of the slice's
    [x], [y] and [var] only ([None]: nothing is written). *)
Definition column_write (p : LeastSquaresProblem) (x y : list R) (var : nat)
    : outcome (option (list R)) :=
  let dx := m_diffStep p in
  match x !! var with
  | None => Crash
  | Some a =>
      match mat_sub (evaluate p (<[var := s_add a dx]> x)) y with
      | Ok dy =>
          let col := map (fun d => s_div d dx) dy in
          if length col =? m_conds p then Ok (Some col) else Ok None
      | Throw | Crash => Crash
      end
  end.

Definition apply_write (J : list (list R)) (c : nat) (w : option (list R)) : list (list R) :=
  match w with Some col => <[c := col]> J | None => J end.

(** The column [(f(x + h e_v) - y) / h] computed as [DiffThread] does,
    or the zero column [J] starts with when that column has not the size
    [m_conds] (or the subtraction is refused). *)
Definition guarded_column (p : LeastSquaresProblem) (x y : list R) (v : nat) : list R :=
  let h := m_diffStep p in
  match mat_sub (evaluate p (alter (fun a => s_add a h) v x)) y with
  | Ok dy =>
      let col := map (fun d => s_div d h) dy in
      if length col =? m_conds p then col else replicate (m_conds p) s_zero
  | Throw | Crash => replicate (m_conds p) s_zero
  end.

(** [SetActiveVars]: the loop returns [false] at the first index [>= m_vars]. *)
Fixpoint all_below (n : nat) (idx : list nat) : bool :=
  match idx with
  | [] => true
  | var :: vs => if n <=? var then false else all_below n vs
  end.

Definition SetActiveVars (p : LeastSquaresProblem) (varIdx : list nat)
    : bool * LeastSquaresProblem :=
  if all_below (m_vars p) varIdx then (true, with_varIdx p varIdx) else (false, p).

(** The loop of [ApplyUpdate]: [x[var] += delta[i++]]; [operator[]] out of
    range is undefined behaviour. *)
Fixpoint add_deltas (x : list R) (vars : list nat) (delta : list R) (i : nat) : outcome (list R) :=
  match vars with
  | [] => Ok x
  | var :: vs =>
      match x !! var, delta !! i with
      | Some a, Some d => add_deltas (<[var := s_add a d]> x) vs delta (S i)
      | _, _ => Crash
      end
  end.

(** [ApplyUpdate(x0, delta)], with its [assert(delta.size() <= x0.size())]. *)
Definition ApplyUpdate (p : LeastSquaresProblem) (x0 delta : list R) : outcome (list R) :=
  if length x0 <? length delta then Crash else add_deltas x0 (m_varIdx p) delta 0.

End Problem.

Arguments LeastSquaresProblem : clear implicits.
Arguments JacobianSlice : clear implicits.

Section Solver.
Context {R : Type} `{Scalar R} `{MatInv R}.

(** [LevenbergMarquardtAlgorithm]: its fields and [m_term]. *)
Record LevenbergMarquardtAlgorithm := {
  m_lambda : R;
  m_eta : R;
  maxCount : nat;        (* [m_term.maxCount], an [int] compared with the [size_t]
                            counters [updates] and [trials]: a non-negative count;
                            a negative one would convert to a huge [size_t] *)
  epsilon : R;           (* [m_term.epsilon] *)
  m_verbose : bool
}.

(** The local variables of [Solve] that live across iterations. *)
Record lm_state := {
  lambda : R;
  converged : bool;
  derr : list R;
  x_best : list R;
  y_best : list R;
  e_best : R;
  updates : nat
}.

(** Messages of [Solve] and calls of [SetSolution]. [EvHessianDiag] and
    [EvStep] are ghost events: they record [H.diag()] of each outer
    iteration and [x_delta] of each trial, which the code computes but does
    not print. *)
Inductive event :=
| EvWarnNotResponsive (d : nat)    (* "change of parameter d not responsive" *)
| EvErrIllPosed                    (* "problem ill-posed" *)
| EvErrException                   (* "exception caught in optimisation loop" *)
| EvSetSolution (x : list R)          (* the call [f.SetSolution(x_best)] *)
| EvErrSetSolution                 (* "error setting solution" *)
| EvHessianDiag (hd : list R)
| EvStep (delta : list R).

(** Dense linear algebra of OpenCV on lists (matrices as lists of rows,
    [J] as the list of its columns). *)
Definition dot (a b : list R) : R := fold_right s_add s_zero (zip_with s_mul a b).
Definition gram (J : list (list R)) : list (list R) := map (fun ci => map (dot ci) J) J.  (* [J.t() * J] *)
Definition jt_mul (J : list (list R)) (y : list R) : list R := map (fun c => dot c y) J.   (* [J.t() * y] *)
Definition mat_vec (M : list (list R)) (v : list R) : list R := map (fun r => dot r v) M.
Definition mat_diag (M : list (list R)) : list R := imap (fun i r => nth i r s_zero) M.

(** [H = J.t() * J] and [D = J.t() * cv::Mat(y_best)] ([cv::gemm]):
    OpenCV 3.3 or later refuses an empty operand ([J] is
    [m_conds x n], empty when [n = 0] or [m_conds = 0]), and [cv::gemm]
    asserts that [J] has as many rows as [y] has entries; both failures
    are [cv::Exception]s. *)
Definition jac_empty (J : list (list R)) : bool :=
  match J with [] => true | c :: _ => match c with [] => true | _ => false end end.
Definition jac_rows (J : list (list R)) : nat := match J with [] => 0 | c :: _ => length c end.

Definition hessian (J : list (list R)) : outcome (list (list R)) :=
  if jac_empty J then Throw else Ok (gram J).
Definition gradient (J : list (list R)) (y : list R) : outcome (list R) :=
  if jac_empty J || negb (jac_rows J =? length y) then Throw else Ok (jt_mul J y).

(** [H + lambda * cv::Mat::diag(H.diag())]. *)
Definition augment (M : list (list R)) (lam : R) : list (list R) :=
  imap (fun i r => imap (fun j h =>
          s_add h (s_mul lam (if i =? j then nth i r s_zero else s_zero))) r) M.

(** [cv::mean] (0 on an empty matrix) and [cv::norm] (L2). *)
Definition cv_mean (v : list R) : R :=
  match v with
  | [] => s_zero
  | _ => s_mul (fold_right s_add s_zero v) (s_div s_one (s_of_nat (length v)))
  end.
Definition norm (v : list R) : R := s_sqrt (dot v v).

(** Modelled from the spec: [rms], the seq2map helper declared outside
    [src/]; the spec defines rms(v) = sqrt(mean(v_i^2)). *)
Definition rms (v : list R) : R := s_sqrt (s_div (dot v v) (s_of_nat (length v))).

(** Indices [d] with [icv.at<double>(d) == 0], in increasing order. *)
Definition zero_indices (icv : list R) : list nat :=
  List.filter (fun d => match icv !! d with Some z => s_eqb z s_zero | None => false end)
    (seq 0 (length icv)).

Definition set_converged (st : lm_state) (c : bool) : lm_state :=
  {| lambda := lambda st; converged := c; derr := derr st; x_best := x_best st;
     y_best := y_best st; e_best := e_best st; updates := updates st |}.

Definition set_lambda_y (st : lm_state) (lam : R) (y : list R) : lm_state :=
  {| lambda := lam; converged := converged st; derr := derr st; x_best := x_best st;
     y_best := y; e_best := e_best st; updates := updates st |}.

(** [derrRatio]: [derr[n-1] / derr[n-2]] when [n = derr.size() > 1], else [1.0f]. *)
Definition derr_ratio (d : list R) : R :=
  let n := length d in
  if 1 <? n then s_div (nth (n - 1) d s_zero) (nth (n - 2) d s_zero) else s_one.

Inductive trial_result :=
| TrialDone (st : lm_state) (better : bool) (trials : nat) (delta : list R) (log : list event)
| TrialIll (log : list event)
| TrialThrow
| TrialCrash.

(** One pass of the body of the inner [while (!better && !converged)] loop
    of [Solve] (lines 150-207). *)
Definition trial (alg : LevenbergMarquardtAlgorithm) (p : LeastSquaresProblem R)
    (Hm : list (list R)) (D : list R) (st : lm_state) (trials : nat) : trial_result :=
  let A := augment Hm (lambda st) in
  let x_delta := mat_vec (mat_inv A) (map s_opp D) in
  match ApplyUpdate p (x_best st) x_delta with
  | Throw => TrialThrow
  | Crash => TrialCrash
  | Ok x_try =>
      let y_try := evaluate p x_try in
      let e_try := rms y_try in
      let de := s_sub (e_best st) e_try in
      let better := s_ltb s_zero de in
      let trials' := S trials in
      let st1 :=
        if better then
          {| lambda := s_div (lambda st) (m_eta alg); converged := converged st;
             x_best := x_try; y_best := y_try; e_best := e_try;
             derr := derr st ++ [de]; updates := S (updates st) |}
        else
          {| lambda := s_mul (lambda st) (m_eta alg); converged := converged st;
             x_best := x_best st; y_best := y_best st; e_best := e_best st;
             derr := derr st; updates := updates st |} in
      let derrRatio := derr_ratio (derr st1) in
      let stepRatio := s_div (norm x_delta) (norm (x_best st1)) in
      let conv :=
        converged st1
        || (maxCount alg <=? updates st1)
        || ((1 <? updates st1) && s_ltb derrRatio (epsilon alg))
        || ((1 <? updates st1) && s_ltb stepRatio (epsilon alg))
        || (negb better && (s_eqb (lambda st1) s_zero || (maxCount alg <=? trials'))) in
      let st2 := set_converged st1 conv in
      let warns := zero_indices (mat_diag Hm) in
      let ill := negb (bool_decide (warns = [])) || negb (s_isfinite (norm x_delta)) in
      let log := EvStep x_delta :: map EvWarnNotResponsive warns in
      if ill then TrialIll (log ++ [EvErrIllPosed])
      else TrialDone st2 better trials' x_delta log
  end.

Inductive inner_result :=
| InnerDone (st : lm_state) (better : bool) (trials : nat) (log : list event)
| InnerIll (log : list event)
| InnerThrow (log : list event)
| InnerCrash (log : list event)
| InnerOutOfFuel (log : list event).

(** The inner loop; it runs at most [max 1 maxCount] times, [fuel] is a
    bound on that number. *)
Fixpoint inner_loop (alg : LevenbergMarquardtAlgorithm) (p : LeastSquaresProblem R)
    (Hm : list (list R)) (D : list R) (fuel : nat) (st : lm_state) (better : bool)
    (trials : nat) (log : list event) : inner_result :=
  if negb better && negb (converged st) then
    match fuel with
    | 0 => InnerOutOfFuel log
    | S fuel' =>
        match trial alg p Hm D st trials with
        | TrialDone st' b t' _ lg => inner_loop alg p Hm D fuel' st' b t' (log ++ lg)
        | TrialIll lg => InnerIll (log ++ lg)
        | TrialThrow => InnerThrow log
        | TrialCrash => InnerCrash log
        end
    end
  else InnerDone st better trials log.

Inductive exec := Returned (b : bool) | Crashed | OutOfFuel.

(** After the loop: [if (!f.SetSolution(x_best)) { ... return false; } return true;] *)
Definition finish (p : LeastSquaresProblem R) (st : lm_state) (log : list event)
    : exec * list event :=
  let x := x_best st in
  if SetSolution p x then (Returned true, log ++ [EvSetSolution x])
  else (Returned false, log ++ [EvSetSolution x; EvErrSetSolution]).

(** The outer [while (!converged)] loop inside the [try] block. *)
Fixpoint outer_loop (alg : LevenbergMarquardtAlgorithm) (p : LeastSquaresProblem R)
    (fuel inner_fuel : nat) (st : lm_state) (log : list event) : exec * list event :=
  if converged st then finish p st log else
  match fuel with
  | 0 => (OutOfFuel, log)
  | S fuel' =>
      match ComputeJacobian p (x_best st) (y_best st) with
      | Throw => (Returned false, log ++ [EvErrException])
      | Crash => (Crashed, log)
      | Ok (_, J, y') =>
          match (Hm <-- hessian J ; D <-- gradient J y' ; Ok (Hm, D)) with
          | Throw => (Returned false, log ++ [EvErrException])
          | Crash => (Crashed, log)
          | Ok (Hm, D) =>
              let lam := if s_ltb (lambda st) s_zero then cv_mean (mat_diag Hm) else lambda st in
              let st := set_lambda_y st lam y' in
              match inner_loop alg p Hm D inner_fuel st false 0 (log ++ [EvHessianDiag (mat_diag Hm)]) with
              | InnerDone st' _ _ log' => outer_loop alg p fuel' inner_fuel st' log'
              | InnerIll log' => (Returned false, log')
              | InnerThrow log' => (Returned false, log' ++ [EvErrException])
              | InnerCrash log' => (Crashed, log')
              | InnerOutOfFuel log' => (OutOfFuel, log')
              end
          end
      end
  end.

(** [LevenbergMarquardtAlgorithm::Solve(f, x0)], with [assert(m_eta > 1.0f)].
    At most [max 1 maxCount] outer iterations of at most [max 1 maxCount]
    trials each are run, hence the fuel [S maxCount] for both loops. *)
Definition Solve (alg : LevenbergMarquardtAlgorithm) (p : LeastSquaresProblem R)
    (x0 : list R) : exec * list event :=
  if negb (s_ltb s_one (m_eta alg)) then (Crashed, []) else
  let y0 := evaluate p x0 in
  let st0 := {| lambda := m_lambda alg; converged := false; derr := [];
                x_best := x0; y_best := y0; e_best := rms y0; updates := 0 |} in
  outer_loop alg p (S (maxCount alg)) (S (maxCount alg)) st0 [].

(** Events of a log that report nothing ill-posed: a Hessian diagonal
    without zero, a step of finite norm. *)
Definition no_ill (e : event) : Prop :=
  match e with
  | EvHessianDiag hd => zero_indices hd = []
  | EvStep delta => s_isfinite (norm delta) = true
  | _ => True
  end.

(** The event of a trial that completed. *)
Definition step_ok (e : event) : Prop := exists delta, e = EvStep delta /\ s_isfinite (norm delta) = true.

End Solver.

Arguments LevenbergMarquardtAlgorithm : clear implicits.
Arguments lm_state : clear implicits.
Arguments event : clear implicits.

(** A scalar instance used to run the model on concrete inputs, and a
    placeholder inverse (the identity), enough to run the control flow. *)
#[export] Instance Z_scalar : Scalar Z := {
  s_zero := 0%Z; s_one := 1%Z; s_add := Z.add; s_sub := Z.sub;
  s_mul := Z.mul; s_div := Z.div; s_opp := Z.opp; s_sqrt := Z.sqrt;
  s_of_nat := Z.of_nat; s_ltb := Z.ltb; s_eqb := Z.eqb;
  s_isfinite := fun _ => true }.

#[export] Instance Z_matinv : MatInv Z := { mat_inv := fun A => A }.

Definition demo_problem : LeastSquaresProblem Z :=
  {| m_vars := 2; m_conds := 2; m_varIdx := [0; 1]; m_diffStep := 1%Z;
     m_diffThreads := 2; m_jacobianPattern := [];
     evaluate := fun x => [(3 * nth 0 x 0)%Z; (nth 0 x 0 + 5 * nth 1 x 0)%Z];
     SetSolution := fun _ => true |}.

Definition demo_lm : LevenbergMarquardtAlgorithm Z :=
  {| m_lambda := 1%Z; m_eta := 2%Z; maxCount := 3; epsilon := 0%Z; m_verbose := false |}.

(** A one-parameter problem [f(x) = [x_0]] whose Jacobian pattern says the
    residual does not depend on [x_0]. *)
Definition masked_problem : LeastSquaresProblem Z :=
  {| m_vars := 1; m_conds := 1; m_varIdx := [0]; m_diffStep := 1%Z;
     m_diffThreads := 1; m_jacobianPattern := [[0]];
     evaluate := fun x => [nth 0 x 0%Z];
     SetSolution := fun _ => true |}.

(** The same residual with [m_diffThreads = 0], the value
    [boost::thread::hardware_concurrency()] returns when the number of
    hardware threads is not available. *)
Definition zero_thread_problem : LeastSquaresProblem Z :=
  {| m_vars := 1; m_conds := 1; m_varIdx := [0]; m_diffStep := 1%Z;
     m_diffThreads := 0; m_jacobianPattern := [];
     evaluate := fun x => [nth 0 x 0%Z];
     SetSolution := fun _ => true |}.

(** [f(x) = [(x_0 - 3) (x_0 + 1)]]: from [x_0 = 0] the steps of the
    identity placeholder inverse first overshoot to a point of equal error,
    then reach the root [x_0 = 3]. *)
Definition curve_problem : LeastSquaresProblem Z :=
  {| m_vars := 1; m_conds := 1; m_varIdx := [0]; m_diffStep := 1%Z;
     m_diffThreads := 1; m_jacobianPattern := [];
     evaluate := fun x => [((nth 0 x 0 - 3) * (nth 0 x 0 + 1))%Z];
     SetSolution := fun _ => true |}.

Definition curve_state : lm_state Z :=
  {| lambda := 1%Z; converged := false; derr := []; x_best := [0%Z];
     y_best := [(-3)%Z]; e_best := 3%Z; updates := 0 |}.

(** A problem with an empty active set. *)
Definition empty_active_problem : LeastSquaresProblem Z :=
  {| m_vars := 1; m_conds := 1; m_varIdx := []; m_diffStep := 1%Z;
     m_diffThreads := 1; m_jacobianPattern := [];
     evaluate := fun x => [nth 0 x 0%Z];
     SetSolution := fun _ => true |}.

(** A residual that does not depend on its only parameter. *)
Definition constant_problem : LeastSquaresProblem Z :=
  {| m_vars := 1; m_conds := 1; m_varIdx := [0]; m_diffStep := 1%Z;
     m_diffThreads := 1; m_jacobianPattern := [];
     evaluate := fun _ => [5%Z];
     SetSolution := fun _ => true |}.

(** [f(x) = [x_0]], solved from [x_0 = 4] without damping. *)
Definition identity_problem : LeastSquaresProblem Z :=
  {| m_vars := 1; m_conds := 1; m_varIdx := [0]; m_diffStep := 1%Z;
     m_diffThreads := 1; m_jacobianPattern := [];
     evaluate := fun x => [nth 0 x 0%Z];
     SetSolution := fun _ => true |}.

Definition undamped_lm : LevenbergMarquardtAlgorithm Z :=
  {| m_lambda := 0%Z; m_eta := 2%Z; maxCount := 3; epsilon := 0%Z; m_verbose := false |}.

(** [f(x) = [x_0; x_0]] differenced against a [y] of one entry: the
    subtraction takes [y] as a scalar. *)
Definition broadcast_problem : LeastSquaresProblem Z :=
  {| m_vars := 1; m_conds := 2; m_varIdx := [0]; m_diffStep := 1%Z;
     m_diffThreads := 1; m_jacobianPattern := [];
     evaluate := fun x => [nth 0 x 0%Z; nth 0 x 0%Z];
     SetSolution := fun _ => true |}.

(** A two-parameter problem whose Jacobian pattern has a single column. *)
Definition narrow_pattern_problem : LeastSquaresProblem Z :=
  {| m_vars := 2; m_conds := 1; m_varIdx := [0; 1]; m_diffStep := 1%Z;
     m_diffThreads := 1; m_jacobianPattern := [[1]];
     evaluate := fun x => [(nth 0 x 0 + nth 1 x 0)%Z];
     SetSolution := fun _ => true |}.

(** * Proofs *)

(** ** The Jacobian engine *)

Section JacobianProofs.
Context {R : Type} `{Scalar R}.

Lemma lookup_map_std {A B} (f : A -> B) (l : list A) i : map f l !! i = f <$> l !! i.
Proof. revert i; induction l as [|a l IH]; intros [|i]; simpl; auto. Qed.

Lemma length_map_std {A B} (f : A -> B) (l : list A) : length (map f l) = length l.
Proof. apply length_map. Qed.

Lemma alter_as_insert (f : R -> R) (x : list R) v a :
  x !! v = Some a -> alter f v x = <[v := f a]> x.
Proof.
  intros Hv. apply list_eq. intros j.
  rewrite list_lookup_alter, list_lookup_insert.
  assert (v < length x) by (apply lookup_lt_is_Some_1; eauto).
  destruct (decide (v = j)) as [<-|Hne].
  - rewrite Hv, decide_True by auto. done.
  - rewrite decide_False by tauto. done.
Qed.

Lemma mat_sub_same (a b : list R) :
  length a = length b -> length a <> 0 -> mat_sub a b = Ok (zip_with s_sub a b).
Proof.
  intros Hl Hn. destruct a as [|a0 a]; [done|]. destruct b as [|b0 b]; [done|].
  unfold mat_sub. rewrite Hl, Nat.eqb_refl. reflexivity.
Qed.

Lemma diff_slice_column_write (p : LeastSquaresProblem R) J s :
  diff_slice p J s =
  w <-- column_write p (sl_x s) (sl_y s) (sl_var s) ; Ok (apply_write J (sl_col s) w).
Proof.
  unfold diff_slice, column_write.
  destruct (sl_x s !! sl_var s); simpl; [|done].
  destruct (mat_sub _ _); simpl; [|done|done].
  destruct (_ =? _); reflexivity.
Qed.

Lemma length_apply_write (J : list (list R)) c w : length (apply_write J c w) = length J.
Proof. destruct w; simpl; auto using length_insert. Qed.

Lemma DiffThread_length (p : LeastSquaresProblem R) J L J' :
  DiffThread p J L = Ok J' -> length J' = length J.
Proof.
  revert J. induction L as [|s L IH]; intros J HJ; simpl in HJ.
  - by injection HJ as <-.
  - rewrite diff_slice_column_write in HJ.
    destruct (column_write p (sl_x s) (sl_y s) (sl_var s)) as [w| |];
      simpl in HJ; try discriminate.
    rewrite (IH _ HJ). apply length_apply_write.
Qed.

Lemma DiffThread_app (p : LeastSquaresProblem R) J L1 L2 :
  DiffThread p J (L1 ++ L2) = J1 <-- DiffThread p J L1 ; DiffThread p J1 L2.
Proof.
  revert J; induction L1 as [|s L1 IH]; intros J; simpl; [done|].
  destruct (diff_slice p J s); simpl; auto.
Qed.

Lemma run_threads_concat (p : LeastSquaresProblem R) J ths :
  run_threads p J ths = DiffThread p J (concat ths).
Proof.
  revert J; induction ths as [|t ths IH]; intros J; simpl; [done|].
  rewrite DiffThread_app. destruct (DiffThread p J t); simpl; auto.
Qed.

Lemma DiffThread_ok_writes (p : LeastSquaresProblem R) J L J' :
  DiffThread p J L = Ok J' ->
  forall s, In s L -> exists w, column_write p (sl_x s) (sl_y s) (sl_var s) = Ok w.
Proof.
  revert J. induction L as [|s0 L IH]; intros J HJ s Hin; [destruct Hin|].
  simpl in HJ. rewrite diff_slice_column_write in HJ.
  destruct (column_write p (sl_x s0) (sl_y s0) (sl_var s0)) as [w| |] eqn:E;
    simpl in HJ; try discriminate.
  destruct Hin as [<-|Hin]; eauto.
Qed.

Lemma DiffThread_untouched (p : LeastSquaresProblem R) J L J' c :
  DiffThread p J L = Ok J' ->
  (forall s, In s L -> sl_col s = c ->
     column_write p (sl_x s) (sl_y s) (sl_var s) = Ok None) ->
  J' !! c = J !! c.
Proof.
  revert J. induction L as [|s L IH]; intros J HJ Hc; simpl in HJ.
  - by injection HJ as <-.
  - rewrite diff_slice_column_write in HJ.
    destruct (column_write p (sl_x s) (sl_y s) (sl_var s)) as [w| |] eqn:E;
      simpl in HJ; try discriminate.
    rewrite (IH _ HJ) by (intros s' Hs' Hc'; apply Hc; [right|]; auto).
    destruct w as [v|]; simpl; [|done].
    destruct (decide (sl_col s = c)) as [<-|Hne].
    + rewrite Hc in E by first [left; reflexivity | reflexivity]. discriminate.
    + by apply list_lookup_insert_ne.
Qed.

Lemma DiffThread_written (p : LeastSquaresProblem R) J L J' c v :
  DiffThread p J L = Ok J' -> c < length J ->
  (forall s, In s L -> sl_col s = c ->
     column_write p (sl_x s) (sl_y s) (sl_var s) = Ok (Some v)) ->
  (J !! c = Some v \/ exists s, In s L /\ sl_col s = c) ->
  J' !! c = Some v.
Proof.
  revert J. induction L as [|s L IH]; intros J HJ Hlt Hc Hex; simpl in HJ.
  - injection HJ as <-. destruct Hex as [?|[? [[] _]]]. done.
  - rewrite diff_slice_column_write in HJ.
    destruct (column_write p (sl_x s) (sl_y s) (sl_var s)) as [w| |] eqn:E;
      simpl in HJ; try discriminate.
    apply (IH _ HJ).
    + rewrite length_apply_write. done.
    + intros s' Hs' Hc'; apply Hc; [right|]; auto.
    + destruct (decide (sl_col s = c)) as [Hsc|Hne].
      * left. rewrite Hc in E by first [left; reflexivity | exact Hsc]. injection E as <-. simpl.
        rewrite <- Hsc. apply list_lookup_insert_eq. lia.
      * assert (Hkeep : apply_write J (sl_col s) w !! c = J !! c)
          by (destruct w; simpl; [by apply list_lookup_insert_ne|done]).
        rewrite Hkeep.
        destruct Hex as [?|[s' [[<-|Hin] Hcol]]]; [by left|done|].
        right. eauto.
Qed.

Lemma list_alter_out {A} (f : A -> A) (l : list A) i :
  length l <= i -> alter f i l = l.
Proof.
  intros Hi. apply list_eq. intros j.
  rewrite list_lookup_alter. destruct (decide (i = j)) as [<-|]; [|done].
  rewrite lookup_ge_None_2 by done. done.
Qed.

Lemma In_concat_alter_app {A} (acc : list (list A)) k a t :
  k < length acc ->
  In t (concat (alter (fun l => l ++ [a]) k acc)) <-> In t (concat acc) \/ t = a.
Proof.
  revert k; induction acc as [|l acc IH]; intros [|k] Hk; simpl in Hk; try lia.
  - change (In t ((l ++ [a]) ++ concat acc) <-> In t (l ++ concat acc) \/ t = a).
    rewrite !in_app_iff. simpl. intuition.
  - change (In t (l ++ concat (alter (fun l => l ++ [a]) k acc))
            <-> In t (l ++ concat acc) \/ t = a).
    rewrite !in_app_iff, IH by lia. tauto.
Qed.

Lemma make_slices_spec (p : LeastSquaresProblem R) x y m vs i acc acc' :
  make_slices p x y m vs i acc = Ok acc' ->
  length acc = m_diffThreads p ->
  length acc' = length acc /\
  (forall t, In t (concat acc') ->
     In t (concat acc) \/
     exists j, vs !! j = Some (sl_var t) /\ sl_col t = i + j /\ sl_x t = x /\ sl_y t = y) /\
  (forall j v, vs !! j = Some v -> exists t, In t (concat acc') /\ sl_col t = i + j).
Proof.
  revert i acc. induction vs as [|var vs IH]; intros i acc Hms Hlen; simpl in Hms.
  - injection Hms as <-. split; [done|]. split; [tauto|]. intros j v Hj. done.
  - destruct (m_diffThreads p =? 0) eqn:HT; [discriminate|].
    apply Nat.eqb_neq in HT.
    set (k := i mod m_diffThreads p).
    assert (Hk : k < length acc) by (rewrite Hlen; apply Nat.mod_upper_bound; done).
    destruct (if m then c <-- mat_col (m_jacobianPattern p) var; Ok (Some c) else Ok None)
      as [mask| |]; simpl in Hms; try discriminate.
    set (sl := {| sl_x := x; sl_y := y; sl_var := var; sl_col := i; sl_mask := mask |}) in *.
    destruct (IH (S i) _ Hms) as [Hl [Hin Hcov]].
    { rewrite length_alter. done. }
    rewrite length_alter in Hl. split; [done|]. split.
    + intros t Ht. destruct (Hin t Ht) as [Ht'|[j [Hj [Hc [Hx Hy]]]]].
      * apply In_concat_alter_app in Ht'; [|done].
        destruct Ht' as [? | ->]; [by left|].
        right. exists 0. simpl. repeat split; auto; lia.
      * right. exists (S j). simpl. repeat split; auto; lia.
    + intros [|j] v Hj; simpl in Hj.
      * injection Hj as <-. exists sl. split; [|simpl; lia].
        assert (Hs : In sl (concat (alter (fun l => l ++ [sl]) k acc)))
          by (apply In_concat_alter_app; auto).
        clear - Hs Hms.
        unfold k in *. revert Hs Hms.
        generalize (alter (fun l => l ++ [sl]) (i mod m_diffThreads p) acc) (S i).
        induction vs as [|w vs IHv]; intros acc0 i0 Hs Hms; simpl in Hms.
        { injection Hms as Heq. subst. exact Hs. }
        destruct (m_diffThreads p =? 0); [discriminate|].
        destruct (if m then c <-- mat_col (m_jacobianPattern p) w; Ok (Some c) else Ok None);
          simpl in Hms; try discriminate.
        eapply IHv; [|exact Hms].
        destruct (decide (i0 mod m_diffThreads p < length acc0)).
        { apply In_concat_alter_app; auto. }
        { rewrite list_alter_out by lia. done. }
      * destruct (Hcov j v Hj) as [t [Ht Hc]]. exists t. split; [done|lia].
Qed.

Lemma column_write_guarded (p : LeastSquaresProblem R) x y v w :
  column_write p x y v = Ok w ->
  match w with
  | Some col => guarded_column p x y v = col
  | None => guarded_column p x y v = replicate (m_conds p) s_zero
  end.
Proof.
  unfold column_write, guarded_column. cbv zeta.
  destruct (x !! v) as [a|] eqn:Hv; [|discriminate].
  rewrite (alter_as_insert _ _ _ _ Hv).
  destruct (mat_sub _ _); [|discriminate|discriminate].
  destruct (length _ =? m_conds p); intros Hw; injection Hw as <-; done.
Qed.

Lemma concat_replicate_nil {A} n : concat (replicate n ([] : list A)) = [].
Proof. induction n; simpl; auto. Qed.

(** A successful [ComputeJacobian] returns the problem unchanged, the
    in/out [y] as [f(x)] when it was empty and as it was otherwise, and
    the single-threaded reference differenced against that [y]. *)
Lemma ComputeJacobian_ok (p : LeastSquaresProblem R) x y p' J y' :
  ComputeJacobian p x y = Ok (p', J, y') ->
  p' = p /\ y' = match y with [] => evaluate p x | _ => y end /\
  J = map (guarded_column p x y') (m_varIdx p).
Proof.
  unfold ComputeJacobian.
  set (y0 := match y with [] => evaluate p x | _ => y end).
  set (J0 := replicate (length (m_varIdx p)) (replicate (m_conds p) s_zero)).
  destruct (make_slices p x y0 _ (m_varIdx p) 0 (replicate (m_diffThreads p) []))
    as [ths| |] eqn:Ems; simpl; try discriminate.
  rewrite run_threads_concat.
  destruct (DiffThread p J0 (concat ths)) as [J1| |] eqn:Ed; simpl; try discriminate.
  intros Heq; injection Heq as <- <- <-.
  split; [done|]. split; [done|].
  destruct (make_slices_spec _ _ _ _ _ _ _ _ Ems) as [_ [Hin Hcov]];
    [by rewrite length_replicate|].
  rewrite concat_replicate_nil in Hin.
  assert (HJlen : length J1 = length (m_varIdx p))
    by (rewrite (DiffThread_length _ _ _ _ Ed); unfold J0; apply length_replicate).
  apply list_eq. intros c.
  rewrite lookup_map_std.
  destruct (m_varIdx p !! c) as [v|] eqn:Hv; simpl.
  - assert (Hsame : forall t, In t (concat ths) -> sl_col t = c ->
                    sl_x t = x /\ sl_y t = y0 /\ sl_var t = v).
    { intros t Ht Hc. destruct (Hin t Ht) as [[]|[j [Hj [Hcj [Hx Hy]]]]].
      simpl in Hcj. assert (j = c) as -> by lia.
      rewrite Hv in Hj. injection Hj as ->. auto. }
    destruct (Hcov c v Hv) as [t0 [Ht0 Hc0]]. simpl in Hc0.
    destruct (DiffThread_ok_writes _ _ _ _ Ed t0 Ht0) as [w Hw].
    destruct (Hsame t0 Ht0 Hc0) as [Hx [Hy Hvar]]. rewrite Hx, Hy, Hvar in Hw.
    pose proof (column_write_guarded _ _ _ _ _ Hw) as Hg.
    assert (Hall : forall t, In t (concat ths) -> sl_col t = c ->
                   column_write p (sl_x t) (sl_y t) (sl_var t) = Ok w)
      by (intros t Ht Hc; destruct (Hsame t Ht Hc) as [-> [-> ->]]; exact Hw).
    assert (Hc_v : c < length (m_varIdx p)) by (eapply lookup_lt_Some; eauto).
    assert (Hc_lt : c < length J0) by (unfold J0; rewrite length_replicate; done).
    destruct w as [col|].
    + rewrite (DiffThread_written _ _ _ _ _ col Ed Hc_lt Hall
                 (or_intror (ex_intro _ t0 (conj Ht0 Hc0)))).
      rewrite Hg. done.
    + rewrite (DiffThread_untouched _ _ _ _ _ Ed Hall). unfold J0.
      rewrite lookup_replicate_2 by lia. rewrite Hg. done.
  - apply lookup_ge_None_1 in Hv. apply lookup_ge_None_2. lia.
Qed.

Lemma DiffThread_succeeds (p : LeastSquaresProblem R) J L :
  (forall s, In s L -> exists w, column_write p (sl_x s) (sl_y s) (sl_var s) = Ok w) ->
  exists J', DiffThread p J L = Ok J'.
Proof.
  revert J. induction L as [|s L IH]; intros J HL; simpl; [eauto|].
  rewrite diff_slice_column_write.
  destruct (HL s (or_introl eq_refl)) as [w ->]. simpl.
  apply IH. intros s' Hs'. apply HL. right. done.
Qed.

Lemma make_slices_succeeds (p : LeastSquaresProblem R) x y m vs i acc :
  (vs <> [] -> m_diffThreads p <> 0) ->
  (m = true -> forall v, In v vs -> v < mat_cols (m_jacobianPattern p)) ->
  exists acc', make_slices p x y m vs i acc = Ok acc'.
Proof.
  revert i acc. induction vs as [|var vs IH]; intros i acc HT Hm; simpl; [eauto|].
  destruct (m_diffThreads p =? 0) eqn:E.
  { apply Nat.eqb_eq in E. exfalso. apply HT; [discriminate|done]. }
  destruct m.
  - unfold mat_col. rewrite (proj2 (Nat.ltb_lt _ _)) by (apply Hm; simpl; auto).
    simpl. apply IH; [intros _; apply HT; discriminate|intros _ v Hv; apply Hm; simpl; auto].
  - simpl. apply IH; [intros _; apply HT; discriminate|discriminate].
Qed.

(** With at least one worker thread, columns in range and non-empty
    residuals of the size of [y], [ComputeJacobian] is the single-threaded
    forward difference reference, whatever the number of threads. *)
Lemma ComputeJacobian_reference (p : LeastSquaresProblem R) x y :
  m_diffThreads p <> 0 -> m_conds p <> 0 ->
  (mat_empty (m_jacobianPattern p) = false ->
     forall v, In v (m_varIdx p) -> v < mat_cols (m_jacobianPattern p)) ->
  (forall v, In v (m_varIdx p) -> v < length x) ->
  length (match y with [] => evaluate p x | _ => y end) = m_conds p ->
  (forall v, In v (m_varIdx p) ->
     length (evaluate p (alter (fun a => s_add a (m_diffStep p)) v x)) = m_conds p) ->
  ComputeJacobian p x y =
  Ok (p, jacobian_reference p x (match y with [] => evaluate p x | _ => y end),
      match y with [] => evaluate p x | _ => y end).
Proof.
  intros HT Hm0 Hmask Hx Hy Hf.
  set (y0 := match y with [] => evaluate p x | _ => y end) in *.
  destruct (make_slices_succeeds p x y0 (negb (mat_empty (m_jacobianPattern p)))
              (m_varIdx p) 0 (replicate (m_diffThreads p) [])) as [ths Ems].
  { intros _. done. }
  { intros Hm. apply Hmask. destruct (mat_empty _); done. }
  destruct (make_slices_spec _ _ _ _ _ _ _ _ Ems) as [_ [Hin _]];
    [by rewrite length_replicate|].
  rewrite concat_replicate_nil in Hin.
  destruct (DiffThread_succeeds p (replicate (length (m_varIdx p)) (replicate (m_conds p) s_zero))
              (concat ths)) as [J1 Ed].
  { intros t Ht. destruct (Hin t Ht) as [[]|[j [Hj [_ [-> ->]]]]].
    assert (Hv : In (sl_var t) (m_varIdx p))
      by (apply list_elem_of_In; eapply list_elem_of_lookup_2; eauto).
    unfold column_write.
    destruct (lookup_lt_is_Some_2 x (sl_var t) (Hx _ Hv)) as [a Ha]. rewrite Ha.
    rewrite <- (alter_as_insert (fun a => s_add a (m_diffStep p)) _ _ _ Ha).
    rewrite mat_sub_same by (rewrite ?Hf, ?Hy; done). simpl.
    destruct (_ =? _); eauto. }
  assert (Hok : ComputeJacobian p x y = Ok (p, J1, y0)).
  { unfold ComputeJacobian. fold y0. rewrite Ems. simpl.
    rewrite run_threads_concat, Ed. done. }
  rewrite Hok. destruct (ComputeJacobian_ok _ _ _ _ _ _ Hok) as [_ [_ HJ]].
  rewrite HJ. unfold jacobian_reference. f_equal. f_equal. f_equal.
  apply map_ext_in. intros v Hv. unfold guarded_column, fd_column.
  rewrite mat_sub_same by (rewrite ?Hf, ?Hy; done). cbv zeta.
  rewrite length_map, length_zip_with, Hf, Hy, Nat.min_id, Nat.eqb_refl by done. done.
Qed.

End JacobianProofs.

(** ** [SetActiveVars] and [ApplyUpdate] *)

Section ActiveProofs.
Context {R : Type} `{Scalar R}.

Lemma all_below_spec n idx : all_below n idx = true <-> forall v, In v idx -> v < n.
Proof.
  induction idx as [|var vs IH]; simpl.
  - split; [intros _ v []|done].
  - destruct (n <=? var) eqn:E.
    + apply Nat.leb_le in E. split; [discriminate|].
      intros Hall. specialize (Hall var (or_introl eq_refl)). lia.
    + apply Nat.leb_gt in E. rewrite IH. split.
      * intros Hall v [<-|Hv]; auto.
      * intros Hall v Hv. apply Hall. auto.
Qed.

Lemma add_deltas_spec (x : list R) vs delta i :
  NoDup vs -> (forall v, In v vs -> v < length x) -> i + length vs <= length delta ->
  exists x', add_deltas x vs delta i = Ok x' /\ length x' = length x /\
    (forall k, ~ In k vs -> x' !! k = x !! k) /\
    (forall j v, vs !! j = Some v ->
       exists a d, x !! v = Some a /\ delta !! (i + j) = Some d /\
                   x' !! v = Some (s_add a d)).
Proof.
  revert x i. induction vs as [|var vs IH]; intros x i Hnd Hlt Hlen; simpl.
  - exists x. repeat split; auto. intros j v Hj. done.
  - apply NoDup_cons in Hnd as [Hnin Hnd].
    destruct (lookup_lt_is_Some_2 x var (Hlt var (or_introl eq_refl))) as [a Ha].
    destruct (lookup_lt_is_Some_2 delta i ltac:(simpl in Hlen; lia)) as [d Hd].
    rewrite Ha, Hd.
    destruct (IH (<[var := s_add a d]> x) (S i)) as [x' [Hrun [Hl [Hout Hin]]]].
    { done. }
    { intros v Hv. rewrite length_insert. apply Hlt. right. done. }
    { simpl in Hlen. lia. }
    exists x'. split; [done|]. split; [rewrite Hl; apply length_insert|]. split.
    + intros k Hk. rewrite Hout by (intros Hk'; apply Hk; auto).
      apply list_lookup_insert_ne. intros ->. apply Hk. auto.
    + intros [|j] v Hj; simpl in Hj.
      * injection Hj as <-. exists a, d. rewrite Nat.add_0_r. split; [done|]. split; [done|].
        rewrite Hout by (intros Hv; apply Hnin; apply list_elem_of_In; done).
        apply list_lookup_insert_eq. apply lookup_lt_is_Some_1. eauto.
      * destruct (Hin j v Hj) as [a' [d' [Ha' [Hd' Hx']]]].
        assert (Hne : var <> v).
        { intros ->. apply Hnin. eapply list_elem_of_lookup_2. eauto. }
        rewrite list_lookup_insert_ne in Ha' by done.
        exists a', d'. replace (i + S j) with (S i + j) by lia. auto.
Qed.

Lemma NoDup_below_length (vs : list nat) n :
  NoDup vs -> (forall v, In v vs -> v < n) -> length vs <= n.
Proof.
  intros Hnd Hlt. rewrite <- (length_seq n 0).
  apply NoDup_incl_length; [by apply NoDup_ListNoDup|].
  intros v Hv. apply in_seq. specialize (Hlt v Hv). lia.
Qed.

End ActiveProofs.

(** ** The claims on the problem *)

Section ProblemClaims.
Context {R : Type} `{Scalar R}.

(** C9: [SetActiveVars] returns [false] exactly when some given index is
    [>= m_vars], and when it returns [true] the active set is replaced by
    the given indices (the rest of the problem unchanged). *)
Theorem C9_SetActiveVars (p : LeastSquaresProblem R) (idx : list nat) :
  (fst (SetActiveVars p idx) = false <-> exists v, In v idx /\ m_vars p <= v) /\
  (fst (SetActiveVars p idx) = true ->
     snd (SetActiveVars p idx) = with_varIdx p idx /\ m_varIdx (snd (SetActiveVars p idx)) = idx).
Proof.
  unfold SetActiveVars. pose proof (all_below_spec (m_vars p) idx) as Hs.
  destruct (all_below (m_vars p) idx) eqn:E; simpl.
  - split; [|done]. split; [discriminate|].
    intros [v [Hv Hge]]. pose proof (proj1 Hs eq_refl v Hv). lia.
  - split; [|discriminate]. split; [intros _|done].
    clear Hs. induction idx as [|var vs IH]; simpl in E; [discriminate|].
    destruct (m_vars p <=? var) eqn:F.
    + apply Nat.leb_le in F. exists var. simpl. auto.
    + destruct (IH E) as [v [Hv Hge]]. exists v. simpl. auto.
Qed.

(** C4: for an active set of distinct indices below [m_vars] and a base
    vector of length [m_vars], [ApplyUpdate(x0, delta)] with [delta] of the
    active-set size succeeds, keeps [x0] at every inactive coordinate and
    holds [x0[i] + delta[j]] at [i = m_varIdx[j]]. *)
Theorem C4_ApplyUpdate (p : LeastSquaresProblem R) (x0 delta : list R) :
  length x0 = m_vars p ->
  (forall v, In v (m_varIdx p) -> v < m_vars p) ->
  NoDup (m_varIdx p) ->
  length delta = length (m_varIdx p) ->
  exists x, ApplyUpdate p x0 delta = Ok x /\ length x = length x0 /\
    (forall i, ~ In i (m_varIdx p) -> x !! i = x0 !! i) /\
    (forall j i, m_varIdx p !! j = Some i ->
       exists a d, x0 !! i = Some a /\ delta !! j = Some d /\ x !! i = Some (s_add a d)).
Proof.
  intros Hx0 Hlt Hnd Hd.
  assert (Hle : length (m_varIdx p) <= length x0)
    by (rewrite Hx0; apply NoDup_below_length; auto).
  destruct (add_deltas_spec x0 (m_varIdx p) delta 0) as [x [Hrun [Hl [Hout Hin]]]].
  { done. }
  { intros v Hv. rewrite Hx0. auto. }
  { lia. }
  exists x. unfold ApplyUpdate.
  rewrite (proj2 (Nat.ltb_ge _ _)) by lia. rewrite Hrun.
  split; [done|]. split; [done|]. split; [done|]. exact Hin.
Qed.

(** C10: [y] is an in/out argument of [ComputeJacobian]: an empty [y] is
    replaced by [f(x)], a non-empty one is kept; the columns are differenced
    against the [y] returned, as [cv::Mat(f(x + h e_v)) - y] does (a column
    whose difference has not [m_conds] entries keeps its initial zeros),
    and the problem (active set, pattern, step) is returned unchanged. *)
Theorem C10_ComputeJacobian_inout (p : LeastSquaresProblem R) x y p' J y' :
  ComputeJacobian p x y = Ok (p', J, y') ->
  p' = p /\ (y = [] -> y' = evaluate p x) /\ (y <> [] -> y' = y) /\
  J = map (guarded_column p x y') (m_varIdx p).
Proof.
  intros Hok. destruct (ComputeJacobian_ok _ _ _ _ _ _ Hok) as [-> [Hy' HJ]].
  split; [done|]. split; [|split; [|done]].
  - intros ->. done.
  - intros Hne. rewrite Hy'. destruct y; [done|]. done.
Qed.

End ProblemClaims.

(** C1: the mask column is put into every slice but [DiffThread] never
    reads it: with the pattern entry (0, 0) zero, [J[0,0]] is the forward
    difference [(f(x + e_0) - f(x)) / 1 = 1], not 0. *)
Theorem C1_mask_ignored :
  mat_col (m_jacobianPattern masked_problem) 0 = Ok [0] /\
  ComputeJacobian masked_problem [0%Z] [] = Ok (masked_problem, [[1%Z]], [0%Z]).
Proof. split; reflexivity. Qed.

(** C2: with [m_diffThreads = 0] and a non-empty active set the
    round-robin [i % m_diffThreads] divides by zero, so no Jacobian is
    produced, while the reference Jacobian is [[1]]. *)
Theorem C2_zero_threads_crash :
  ComputeJacobian zero_thread_problem [0%Z] [] = Crash /\
  jacobian_reference zero_thread_problem [0%Z] [0%Z] = [[1%Z]].
Proof. split; reflexivity. Qed.

Lemma C4_witness :
  exists x, ApplyUpdate demo_problem [1%Z; 1%Z] [2%Z; 3%Z] = Ok x /\
    length x = length [1%Z; 1%Z] /\
    (forall i, ~ In i (m_varIdx demo_problem) -> x !! i = [1%Z; 1%Z] !! i) /\
    (forall j i, m_varIdx demo_problem !! j = Some i ->
       exists a d, [1%Z; 1%Z] !! i = Some a /\ [2%Z; 3%Z] !! j = Some d /\
                   x !! i = Some (s_add a d)).
Proof.
  apply (C4_ApplyUpdate demo_problem [1%Z; 1%Z] [2%Z; 3%Z]).
  - reflexivity.
  - intros v Hv. simpl in Hv. simpl. destruct Hv as [<-|[<-|[]]]; lia.
  - simpl. apply NoDup_ListNoDup. constructor; [simpl; intros [?|[]]; discriminate|].
    constructor; [simpl; tauto|constructor].
  - reflexivity.
Defined.

Lemma C10_witness :
  ComputeJacobian demo_problem [1%Z; 1%Z] [] =
    Ok (demo_problem, [[3%Z; 1%Z]; [0%Z; 5%Z]], [3%Z; 6%Z]) /\
  (demo_problem = demo_problem /\ (([] : list Z) = [] -> [3%Z; 6%Z] = evaluate demo_problem [1%Z; 1%Z]) /\
   (([] : list Z) <> [] -> [3%Z; 6%Z] = []) /\
   [[3%Z; 1%Z]; [0%Z; 5%Z]] = map (guarded_column demo_problem [1%Z; 1%Z] [3%Z; 6%Z]) (m_varIdx demo_problem)).
Proof.
  split; [reflexivity|].
  apply (C10_ComputeJacobian_inout demo_problem [1%Z; 1%Z] [] demo_problem
           [[3%Z; 1%Z]; [0%Z; 5%Z]] [3%Z; 6%Z]).
  reflexivity.
Defined.

(** ** The solver *)

Section SolverProofs.
Context {R : Type} `{Scalar R} `{MatInv R}.

(** What a completed trial did. *)
Lemma trial_done_inv (alg : LevenbergMarquardtAlgorithm R) (p : LeastSquaresProblem R)
    Hm D st trials st' b t' delta lg :
  trial alg p Hm D st trials = TrialDone st' b t' delta lg ->
  delta = mat_vec (mat_inv (augment Hm (lambda st))) (map s_opp D) /\
  t' = S trials /\ lg = [EvStep delta] /\
  zero_indices (mat_diag Hm) = [] /\ s_isfinite (norm delta) = true /\
  exists x_try,
    ApplyUpdate p (x_best st) delta = Ok x_try /\
    b = s_ltb s_zero (s_sub (e_best st) (rms (evaluate p x_try))) /\
    (if b then
       lambda st' = s_div (lambda st) (m_eta alg) /\ x_best st' = x_try /\
       y_best st' = evaluate p x_try /\ e_best st' = rms (evaluate p x_try) /\
       derr st' = derr st ++ [s_sub (e_best st) (rms (evaluate p x_try))] /\
       updates st' = S (updates st)
     else
       lambda st' = s_mul (lambda st) (m_eta alg) /\ x_best st' = x_best st /\
       y_best st' = y_best st /\ e_best st' = e_best st /\
       derr st' = derr st /\ updates st' = updates st) /\
    converged st' =
      (converged st
       || (maxCount alg <=? updates st')
       || ((1 <? updates st') && s_ltb (derr_ratio (derr st')) (epsilon alg))
       || ((1 <? updates st') && s_ltb (s_div (norm delta) (norm (x_best st'))) (epsilon alg))
       || (negb b && (s_eqb (lambda st') s_zero || (maxCount alg <=? t')))).
Proof.
  unfold trial. cbv zeta.
  destruct (ApplyUpdate p (x_best st) _) as [x_try| |] eqn:Eap; try discriminate.
  destruct (negb (bool_decide (zero_indices (mat_diag Hm) = [])) || _) eqn:Eill;
    [discriminate|].
  apply orb_false_iff in Eill as [Ez Ef].
  apply negb_false_iff in Ez, Ef. apply bool_decide_eq_true in Ez.
  intros Ht. injection Ht as <- <- <- <- <-.
  split; [done|]. split; [done|]. split; [by rewrite Ez|]. split; [done|]. split; [done|].
  exists x_try. split; [done|]. split; [done|].
  destruct (s_ltb s_zero _); simpl; repeat split; auto.
Qed.

Lemma trial_ill_inv (alg : LevenbergMarquardtAlgorithm R) (p : LeastSquaresProblem R)
    Hm D st trials lg :
  trial alg p Hm D st trials = TrialIll lg ->
  exists delta, lg = EvStep delta :: map EvWarnNotResponsive (zero_indices (mat_diag Hm))
                      ++ [EvErrIllPosed] /\
    (zero_indices (mat_diag Hm) <> [] \/ s_isfinite (norm delta) = false).
Proof.
  unfold trial. cbv zeta.
  destruct (ApplyUpdate p (x_best st) _) as [x_try| |] eqn:Eap; try discriminate.
  destruct (negb (bool_decide (zero_indices (mat_diag Hm) = [])) || _) eqn:Eill;
    [|discriminate].
  intros Ht. injection Ht as <-. eexists. split; [done|].
  apply orb_true_iff in Eill as [Ez|Ef].
  - left. apply negb_true_iff, bool_decide_eq_false in Ez. done.
  - right. apply negb_true_iff in Ef. done.
Qed.


Lemma length_mat_vec M v : length (mat_vec M v) = length M.
Proof. apply length_map. Qed.

Lemma length_augment M l : length (augment M l) = length M.
Proof. unfold augment. apply length_imap. Qed.

Lemma add_deltas_length (x : list R) vs delta i x' :
  add_deltas x vs delta i = Ok x' -> length x' = length x.
Proof.
  revert x i. induction vs as [|var vs IH]; intros x i; simpl.
  - intros [= ->]. done.
  - destruct (x !! var), (delta !! i); try discriminate.
    intros Hr. rewrite (IH _ _ Hr). apply length_insert.
Qed.

Lemma ApplyUpdate_length (p : LeastSquaresProblem R) x d x' :
  ApplyUpdate p x d = Ok x' -> length x' = length x.
Proof.
  unfold ApplyUpdate. destruct (length x <? length d); [discriminate|].
  apply add_deltas_length.
Qed.

Lemma add_deltas_ok (x : list R) vs delta i :
  (forall v, In v vs -> v < length x) -> i + length vs <= length delta ->
  exists x', add_deltas x vs delta i = Ok x'.
Proof.
  revert x i. induction vs as [|var vs IH]; intros x i Hlt Hlen; simpl.
  - eauto.
  - destruct (lookup_lt_is_Some_2 x var (Hlt var (or_introl eq_refl))) as [a Ha].
    destruct (lookup_lt_is_Some_2 delta i ltac:(simpl in Hlen; lia)) as [d Hd].
    rewrite Ha, Hd. apply IH.
    + intros v Hv. rewrite length_insert. apply Hlt. right. done.
    + simpl in Hlen. lia.
Qed.

Lemma ApplyUpdate_ok (p : LeastSquaresProblem R) x d :
  length d = length (m_varIdx p) -> length (m_varIdx p) <= length x ->
  (forall v, In v (m_varIdx p) -> v < length x) ->
  exists x', ApplyUpdate p x d = Ok x'.
Proof.
  intros Hd Hle Hlt. unfold ApplyUpdate.
  rewrite (proj2 (Nat.ltb_ge _ _)) by lia. apply add_deltas_ok; [done|lia].
Qed.

Lemma zero_indices_spec (hd : list R) d :
  In d (zero_indices hd) <-> exists z, hd !! d = Some z /\ s_eqb z s_zero = true.
Proof.
  unfold zero_indices. rewrite List.filter_In, in_seq. split.
  - intros [_ Hz]. destruct (hd !! d) eqn:E; [eauto|discriminate].
  - intros [z [Hz He]]. rewrite Hz. split; [|done].
    apply lookup_lt_Some in Hz. lia.
Qed.

Lemma derr_ratio_app (d0 : list R) a b : derr_ratio (d0 ++ [a; b]) = s_div b a.
Proof.
  unfold derr_ratio. rewrite length_app. simpl.
  rewrite (proj2 (Nat.ltb_lt _ _)) by lia.
  rewrite !app_nth2 by lia.
  replace (length d0 + 2 - 1 - length d0) with 1 by lia.
  replace (length d0 + 2 - 2 - length d0) with 0 by lia. done.
Qed.

Lemma last_two_split (d : list R) :
  1 < length d -> exists d0 a b, d = d0 ++ [a; b].
Proof.
  intros Hl. destruct (rev d) as [|b [|a r]] eqn:E.
  - apply (f_equal length) in E. rewrite length_rev in E. simpl in E. lia.
  - apply (f_equal length) in E. rewrite length_rev in E. simpl in E. lia.
  - exists (rev r), a, b. rewrite <- (rev_involutive d), E. simpl.
    rewrite <- app_assoc. done.
Qed.

Lemma inner_loop_better alg p Hm D fuel (st : lm_state R) k L :
  inner_loop alg p Hm D fuel st true k L = InnerDone st true k L.
Proof. destruct fuel; reflexivity. Qed.

Lemma inner_loop_converged alg p Hm D fuel (st : lm_state R) b k L :
  converged st = true -> inner_loop alg p Hm D fuel st b k L = InnerDone st b k L.
Proof. intros Hc. destruct fuel; simpl; rewrite Hc, andb_false_r; reflexivity. Qed.

Lemma outer_loop_converged alg p fuel ifuel (st : lm_state R) L :
  converged st = true -> outer_loop alg p fuel ifuel st L = finish p st L.
Proof. intros Hc. destruct fuel; simpl; rewrite Hc; reflexivity. Qed.

(** The damping schedule of one run of the inner loop ending in an accepted
    trial, generalised over the number of trials already done. *)
Lemma inner_loop_lambda alg p Hm D fuel (st : lm_state R) k L st' t L' :
  inner_loop alg p Hm D fuel st false k L = InnerDone st' true t L' ->
  k < t /\
  lambda st' = s_div (Nat.iter (t - 1 - k) (fun l => s_mul l (m_eta alg)) (lambda st)) (m_eta alg).
Proof.
  revert st k L. induction fuel as [|fuel IH]; intros st k L; simpl;
    destruct (converged st); simpl; try congruence.
  destruct (trial alg p Hm D st k) as [st1 b1 t1 delta lg| | |] eqn:Et; try discriminate.
  destruct (trial_done_inv _ _ _ _ _ _ _ _ _ _ _ Et)
    as (_ & -> & _ & _ & _ & x_try & _ & _ & Hbr & _).
  destruct b1.
  - rewrite inner_loop_better. intros [= <- <- <-].
    destruct Hbr as [Hl _]. split; [lia|].
    replace (S k - 1 - k) with 0 by lia. done.
  - destruct Hbr as [Hl _]. intros Hr.
    destruct (IH _ _ _ Hr) as [Hlt Hlam]. split; [lia|].
    rewrite Hlam, Hl. f_equal.
    replace (t - 1 - k) with (S (t - 1 - S k)) by lia.
    rewrite Nat.iter_succ_r. done.
Qed.

(** Trials never throw, and do not stop the process when the step has the
    size of the active set and the active indices are in range. *)
Lemma trial_runs alg p Hm D (st : lm_state R) k :
  (forall A, length (mat_inv A) = length A) ->
  length Hm = length (m_varIdx p) ->
  length (m_varIdx p) <= length (x_best st) ->
  (forall v, In v (m_varIdx p) -> v < length (x_best st)) ->
  trial alg p Hm D st k <> TrialThrow /\ trial alg p Hm D st k <> TrialCrash.
Proof.
  intros Hinv HHm Hle Hlt.
  destruct (ApplyUpdate_ok p (x_best st)
              (mat_vec (mat_inv (augment Hm (lambda st))) (map s_opp D)))
    as [x' Ex'].
  { rewrite length_mat_vec, Hinv, length_augment. done. }
  { done. }
  { done. }
  unfold trial. cbv zeta. rewrite Ex'.
  destruct (negb _ || _); split; discriminate.
Qed.



Lemma inner_loop_ill alg p Hm D fuel (st : lm_state R) b k L :
  (forall A, length (mat_inv A) = length A) ->
  length Hm = length (m_varIdx p) ->
  length (m_varIdx p) <= length (x_best st) ->
  (forall v, In v (m_varIdx p) -> v < length (x_best st)) ->
  match inner_loop alg p Hm D fuel st b k L with
  | InnerDone st' _ _ L' =>
      length (x_best st') = length (x_best st) /\
      exists S, L' = L ++ S /\ Forall step_ok S /\
        (negb b && negb (converged st) = true -> 0 < fuel -> zero_indices (mat_diag Hm) = [])
  | InnerOutOfFuel L' =>
      exists S, L' = L ++ S /\ Forall step_ok S /\
        (negb b && negb (converged st) = true -> 0 < fuel -> zero_indices (mat_diag Hm) = [])
  | InnerIll L' =>
      exists S delta,
        L' = L ++ S ++ EvStep delta :: map EvWarnNotResponsive (zero_indices (mat_diag Hm))
               ++ [EvErrIllPosed] /\
        Forall step_ok S /\
        (zero_indices (mat_diag Hm) <> [] \/ s_isfinite (norm delta) = false)
  | InnerThrow _ | InnerCrash _ => False
  end.
Proof.
  intros Hinv HHm. revert st b k L.
  induction fuel as [|fuel IH]; intros st b k L Hle Hlt; simpl;
    destruct (negb b && negb (converged st)) eqn:G.
  - exists []. rewrite app_nil_r. split; [done|]. split; [constructor|]. lia.
  - split; [done|]. exists []. rewrite app_nil_r. split; [done|]. split; [constructor|].
    discriminate.
  - destruct (trial_runs alg p Hm D st k Hinv HHm Hle Hlt) as [Hnt Hnc].
    destruct (trial alg p Hm D st k) as [st1 b1 t1 delta lg|lg| |] eqn:Et;
      [| |done|done].
    + destruct (trial_done_inv _ _ _ _ _ _ _ _ _ _ _ Et)
        as (_ & _ & -> & Hz & Hf & x_try & Eap & _ & Hbr & _).
      assert (Hx1 : length (x_best st1) = length (x_best st)).
      { destruct b1; destruct Hbr as (_ & Hx & _); rewrite Hx;
          [apply (ApplyUpdate_length p _ _ _ Eap)|done]. }
      specialize (IH st1 b1 t1 (L ++ [EvStep delta]) ltac:(lia)
                    ltac:(intros v Hv; rewrite Hx1; auto)).
      destruct (inner_loop alg p Hm D fuel st1 b1 t1 (L ++ [EvStep delta])).
      * destruct IH as [Hl [S [-> [HS _]]]]. split; [congruence|].
        exists (EvStep delta :: S). rewrite <- app_assoc. split; [done|].
        split; [constructor; [exists delta; done|done]|]. intros; done.
      * destruct IH as [S [delta' [-> [HS Hbad]]]].
        exists (EvStep delta :: S), delta'. rewrite <- app_assoc. split; [done|].
        split; [constructor; [exists delta; done|done]|done].
      * done.
      * done.
      * destruct IH as [S [-> [HS _]]].
        exists (EvStep delta :: S). rewrite <- app_assoc. split; [done|].
        split; [constructor; [exists delta; done|done]|]. intros; done.
    + destruct (trial_ill_inv _ _ _ _ _ _ _ Et) as [delta [-> Hbad]].
      exists [], delta. split; [done|]. split; [constructor|done].
  - split; [done|]. exists []. rewrite app_nil_r. split; [done|]. split; [constructor|].
    discriminate.
Qed.

Lemma Forall_step_ok_no_ill S : Forall step_ok S -> Forall no_ill S.
Proof.
  intros HS. eapply Forall_impl; [exact HS|]. intros e [delta [-> Hf]]. exact Hf.
Qed.

Lemma Forall_step_ok_no_set S x : Forall step_ok S -> ~ In (EvSetSolution x) S.
Proof.
  intros HS Hin. rewrite Forall_forall in HS.
  destruct (HS _ (proj2 (list_elem_of_In _ _) Hin)) as [delta [Hd _]]. discriminate.
Qed.

Lemma hessian_gradient_cases (J : list (list R)) y :
  (Hm <-- hessian J ; D <-- gradient J y ; Ok (Hm, D)) = Ok (gram J, jt_mul J y) \/
  (Hm <-- hessian J ; D <-- gradient J y ; Ok (Hm, D)) = Throw.
Proof.
  unfold hessian, gradient. destruct (jac_empty J); simpl; [by right|].
  destruct (negb _); simpl; auto.
Qed.

Lemma hessian_gradient_ok (J : list (list R)) y :
  jac_empty J = false -> jac_rows J = length y ->
  (Hm <-- hessian J ; D <-- gradient J y ; Ok (Hm, D)) = Ok (gram J, jt_mul J y).
Proof.
  intros He Hr. unfold hessian, gradient. rewrite He, Hr, Nat.eqb_refl. done.
Qed.

Lemma outer_loop_ill alg p fuel ifuel (st : lm_state R) L res L' :
  (forall A, length (mat_inv A) = length A) -> 0 < ifuel ->
  length (m_varIdx p) <= length (x_best st) ->
  (forall v, In v (m_varIdx p) -> v < length (x_best st)) ->
  Forall no_ill L -> (forall x, ~ In (EvSetSolution x) L) ->
  outer_loop alg p fuel ifuel st L = (res, L') ->
  Forall no_ill L' \/
  (res = Returned false /\ (forall x, ~ In (EvSetSolution x) L') /\
   exists pre ws, L' = pre ++ map EvWarnNotResponsive ws ++ [EvErrIllPosed] /\
     forall hd, In (EvHessianDiag hd) L' -> forall d, In d (zero_indices hd) -> In d ws).
Proof.
  intros Hinv Hif. revert st L.
  induction fuel as [|fuel IH]; intros st L Hle Hlt HL HLs; simpl;
    destruct (converged st) eqn:Hc.
  1,3: unfold finish; destruct (SetSolution p (x_best st)); intros [= <- <-]; left;
       (apply Forall_app; split; [done|repeat constructor]).
  - intros [= <- <-]. left. done.
  - destruct (ComputeJacobian p (x_best st) (y_best st)) as [[[p' J] y']| |] eqn:EJ.
    2: { intros [= <- <-]. left. apply Forall_app; split; [done|]. repeat constructor. }
    2: { intros [= <- <-]. left. done. }
    destruct (ComputeJacobian_ok _ _ _ _ _ _ EJ) as [_ [_ HJ]].
    destruct (hessian_gradient_cases J y') as [EHD|EHD]; rewrite EHD.
    2: { intros [= <- <-]. left. apply Forall_app; split; [done|]. repeat constructor. }
    assert (HHm : length (gram J) = length (m_varIdx p)).
    { unfold gram. rewrite length_map, HJ, length_map. done. }
    pose proof (inner_loop_ill alg p (gram J) (jt_mul J y') ifuel
                  (set_lambda_y st (if s_ltb (lambda st) s_zero
                                    then cv_mean (mat_diag (gram J)) else lambda st) y')
                  false 0 (L ++ [EvHessianDiag (mat_diag (gram J))]) Hinv HHm Hle Hlt) as Hi.
    destruct (inner_loop _ _ _ _ _ _ _ _ _) as [st' b' t' L''|L''|L''|L''|L''].
    + destruct Hi as [Hl [S [-> [HS Hz]]]].
      specialize (Hz ltac:(simpl; rewrite Hc; done) Hif).
      intros Hr. apply (IH st' _ ltac:(simpl in Hl; lia)
                          ltac:(intros v Hv; simpl in Hl; rewrite Hl; auto)) in Hr;
        [done| |].
      * rewrite <- app_assoc. apply Forall_app. split; [done|].
        constructor; [exact Hz|]. apply Forall_step_ok_no_ill. done.
      * intros x Hin. rewrite <- app_assoc in Hin.
        apply in_app_or in Hin as [Hin|Hin]; [apply (HLs x); done|].
        apply in_app_or in Hin as [Hin|Hin].
        -- destruct Hin as [Hin|[]]. discriminate.
        -- apply (Forall_step_ok_no_set S x HS). done.
    + destruct Hi as [S [delta [-> [HS Hbad]]]]. intros [= <- <-]. right.
      split; [done|]. split.
      * intros x Hin. repeat (apply in_app_or in Hin as [Hin|Hin]).
        -- apply (HLs x). done.
        -- destruct Hin as [Hin|[]]. discriminate.
        -- apply (Forall_step_ok_no_set S x HS). done.
        -- simpl in Hin. destruct Hin as [Hin|Hin]; [discriminate|].
           apply in_app_or in Hin as [Hin|Hin].
           ++ apply in_map_iff in Hin as [? [? _]]. discriminate.
           ++ destruct Hin as [Hin|[]]. discriminate.
      * exists ((L ++ [EvHessianDiag (mat_diag (gram J))]) ++ S ++ [EvStep delta]),
          (zero_indices (mat_diag (gram J))).
        split; [rewrite <- !app_assoc; done|].
        intros hd Hin d Hd. repeat (apply in_app_or in Hin as [Hin|Hin]).
        -- rewrite Forall_forall in HL.
           specialize (HL _ (proj2 (list_elem_of_In _ _) Hin)). simpl in HL.
           rewrite HL in Hd. destruct Hd.
        -- destruct Hin as [Hin|[]]. injection Hin as ->. done.
        -- exfalso. rewrite Forall_forall in HS.
           destruct (HS _ (proj2 (list_elem_of_In _ _) Hin)) as [? [? _]]. discriminate.
        -- simpl in Hin. destruct Hin as [Hin|Hin]; [discriminate|].
           apply in_app_or in Hin as [Hin|Hin].
           ++ apply in_map_iff in Hin as [? [? _]]. discriminate.
           ++ destruct Hin as [Hin|[]]. discriminate.
    + done.
    + done.
    + destruct Hi as [S [-> [HS Hz]]].
      specialize (Hz ltac:(simpl; rewrite Hc; done) Hif).
      intros [= <- <-]. left. rewrite <- app_assoc. apply Forall_app. split; [done|].
      constructor; [exact Hz|]. apply Forall_step_ok_no_ill. done.
Qed.


Lemma run_threads_empty (p : LeastSquaresProblem R) J n :
  run_threads p J (replicate n []) = Ok J.
Proof. induction n; simpl; auto. Qed.

Section EmptyActiveSet.
Variable alg : LevenbergMarquardtAlgorithm R.
Variable p : LeastSquaresProblem R.
Variable x0 : list R.
Hypothesis Hvar : m_varIdx p = [].

Lemma empty_ComputeJacobian x y :
  ComputeJacobian p x y = Ok (p, [], match y with [] => evaluate p x | _ => y end).
Proof.
  unfold ComputeJacobian. rewrite Hvar. simpl. rewrite run_threads_empty. done.
Qed.

Lemma empty_Solve :
  s_ltb s_one (m_eta alg) = true ->
  Solve alg p x0 = (Returned false, [EvErrException]).
Proof.
  intros Heta. unfold Solve. rewrite Heta. cbn [negb outer_loop converged x_best y_best].
  rewrite empty_ComputeJacobian. reflexivity.
Qed.

End EmptyActiveSet.

End SolverProofs.

Section SolverClaims.
Context {R : Type} `{Scalar R} `{MatInv R}.

(** C3 (amended): with an empty active set [Solve] does not return
    [true]. [ComputeJacobian] returns the empty Jacobian [m_conds x 0];
    the product [J.t() * J] refuses it with a [cv::Exception]; the [catch]
    block reports it ("exception caught in optimisation loop") and [Solve]
    returns [false] without calling [SetSolution]. *)
Theorem C3_empty_active_set (alg : LevenbergMarquardtAlgorithm R) (p : LeastSquaresProblem R) x0 :
  m_varIdx p = [] ->
  s_ltb s_one (m_eta alg) = true ->
  Solve alg p x0 = (Returned false, [EvErrException]).
Proof. intros Hv Heta. apply empty_Solve; done. Qed.

(** C5: an inner loop started with [better = false] that ends by an
    accepted trial after [t] trials has rejected the first [t - 1] and
    accepted the last one. So [lambda] has been multiplied by [m_eta]
    [t - 1] times and then divided by [m_eta] once. *)
Theorem C5_lambda_schedule (alg : LevenbergMarquardtAlgorithm R) (p : LeastSquaresProblem R)
    Hm D fuel (st : lm_state R) log st' t log' :
  inner_loop alg p Hm D fuel st false 0 log = InnerDone st' true t log' ->
  1 <= t /\
  lambda st' = s_div (Nat.iter (t - 1) (fun l => s_mul l (m_eta alg)) (lambda st)) (m_eta alg).
Proof.
  intros Hr. destruct (inner_loop_lambda _ _ _ _ _ _ _ _ _ _ _ Hr) as [Ht Hl].
  split; [lia|]. rewrite Hl, Nat.sub_0_r. done.
Qed.

(** C6: after a completed trial, started with [converged = false] (the
    loop guard) and with one recorded error drop per accepted update,
    [converged] is true exactly when one of these holds:
    - [updates >= maxCount];
    - [updates > 1] and the last recorded drop divided by the one before it
      is below [epsilon];
    - [updates > 1] and [norm(x_delta) / norm(x_best)] is below [epsilon];
    - the trial was rejected and the new [lambda] is 0 or the trial count
      has reached [maxCount].
    The drops stay one per accepted update. *)
Theorem C6_convergence_test (alg : LevenbergMarquardtAlgorithm R) (p : LeastSquaresProblem R)
    Hm D (st : lm_state R) trials st' b t' delta lg :
  converged st = false ->
  length (derr st) = updates st ->
  trial alg p Hm D st trials = TrialDone st' b t' delta lg ->
  length (derr st') = updates st' /\
  (converged st' = true <->
     maxCount alg <= updates st' \/
     (1 < updates st' /\ exists d0 dprev dlast, derr st' = d0 ++ [dprev; dlast] /\
                          s_ltb (s_div dlast dprev) (epsilon alg) = true) \/
     (1 < updates st' /\ s_ltb (s_div (norm delta) (norm (x_best st'))) (epsilon alg) = true) \/
     (b = false /\ (s_eqb (lambda st') s_zero = true \/ maxCount alg <= t'))).
Proof.
  intros Hc Hlen Ht.
  destruct (trial_done_inv _ _ _ _ _ _ _ _ _ _ _ Ht)
    as (_ & Ht' & _ & _ & _ & x_try & _ & _ & Hbr & Hconv).
  assert (Hlen' : length (derr st') = updates st').
  { destruct b; destruct Hbr as (_ & _ & _ & _ & Hd & Hu); rewrite Hd, Hu;
      [rewrite length_app; simpl; lia|done]. }
  split; [done|].
  assert (Hratio : (1 < updates st' /\ s_ltb (derr_ratio (derr st')) (epsilon alg) = true) <->
                   (1 < updates st' /\ exists d0 dprev dlast, derr st' = d0 ++ [dprev; dlast] /\
                                        s_ltb (s_div dlast dprev) (epsilon alg) = true)).
  { split.
    - intros [Hu Hr]. split; [done|].
      destruct (last_two_split (derr st') ltac:(lia)) as (d0 & a & c & Hd).
      exists d0, a, c. split; [done|]. rewrite Hd, derr_ratio_app in Hr. done.
    - intros [Hu (d0 & a & c & Hd & Hr)]. split; [done|]. rewrite Hd, derr_ratio_app. done. }
  rewrite Hconv, Hc. simpl orb.
  rewrite !orb_true_iff, !andb_true_iff, !Nat.leb_le, !Nat.ltb_lt, negb_true_iff,
    orb_true_iff, Nat.leb_le.
  rewrite Hratio. tauto.
Qed.

(** C7: suppose some [H.diag()] of a run of [Solve] has a zero entry, or
    some proposed step has a non-finite norm. Then [Solve] returns [false]
    and never calls [SetSolution]. The run ends with a warning for each
    zero entry of that diagonal, followed by the ill-posed error; every zero
    of every diagonal in the run is among the warned indices. The indices
    are positions in [H.diag()], that is, in the active set. The run must
    have [m_varIdx] in range of [x0] and no longer than [x0], and an inverse
    that keeps the size of its matrix. *)
Theorem C7_ill_posed (alg : LevenbergMarquardtAlgorithm R) (p : LeastSquaresProblem R)
    x0 res log :
  (forall A, length (mat_inv A) = length A) ->
  length (m_varIdx p) <= length x0 ->
  (forall v, In v (m_varIdx p) -> v < length x0) ->
  Solve alg p x0 = (res, log) ->
  (exists hd d z, In (EvHessianDiag hd) log /\ hd !! d = Some z /\ s_eqb z s_zero = true) \/
  (exists delta, In (EvStep delta) log /\ s_isfinite (norm delta) = false) ->
  res = Returned false /\ (forall x, ~ In (EvSetSolution x) log) /\
  exists pre ws, log = pre ++ map EvWarnNotResponsive ws ++ [EvErrIllPosed] /\
    forall hd d z, In (EvHessianDiag hd) log -> hd !! d = Some z -> s_eqb z s_zero = true ->
      In d ws.
Proof.
  intros Hinv Hle Hlt. unfold Solve.
  destruct (negb (s_ltb s_one (m_eta alg))).
  { intros [= <- <-] [(? & ? & ? & [] & _)|(? & [] & _)]. }
  intros Hrun Hbad.
  apply outer_loop_ill in Hrun; [|done|lia|exact Hle|exact Hlt|constructor|intros x []].
  destruct Hrun as [Hok|(Hres & Hns & pre & ws & Hlog & Hws)].
  - exfalso. rewrite Forall_forall in Hok.
    destruct Hbad as [(hd & d & z & Hin & Hz & He)|(delta & Hin & Hf)].
    + specialize (Hok _ (proj2 (list_elem_of_In _ _) Hin)). simpl in Hok.
      assert (Hd : In d (zero_indices hd)) by (apply zero_indices_spec; eauto).
      rewrite Hok in Hd. destruct Hd.
    + specialize (Hok _ (proj2 (list_elem_of_In _ _) Hin)). simpl in Hok. congruence.
  - split; [done|]. split; [done|]. exists pre, ws. split; [done|].
    intros hd d z Hin Hz He. apply (Hws hd Hin). apply zero_indices_spec. eauto.
Qed.

(** C8: in a trial starting from [e_best = rms(y_best)], the invariant is
    kept. An accepted trial makes [rms(y_best)] strictly smaller and
    increments [updates]. A rejected trial leaves [x_best], [y_best] and
    [e_best] as they were. This assumes an arithmetic in which [a - b > 0]
    implies [b < a] (true in IEEE-754). *)
Theorem C8_best_improves (alg : LevenbergMarquardtAlgorithm R) (p : LeastSquaresProblem R)
    Hm D (st : lm_state R) trials st' b t' delta lg :
  (forall a c, s_ltb s_zero (s_sub a c) = true -> s_ltb c a = true) ->
  e_best st = rms (y_best st) ->
  trial alg p Hm D st trials = TrialDone st' b t' delta lg ->
  e_best st' = rms (y_best st') /\
  (b = true -> s_ltb (rms (y_best st')) (rms (y_best st)) = true /\ updates st' = S (updates st)) /\
  (b = false -> x_best st' = x_best st /\ y_best st' = y_best st /\ e_best st' = e_best st).
Proof.
  intros Hlt He Ht.
  destruct (trial_done_inv _ _ _ _ _ _ _ _ _ _ _ Ht)
    as (_ & _ & _ & _ & _ & x_try & _ & Hb & Hbr & _).
  destruct b; destruct Hbr as (_ & Hx & Hy & He' & _ & Hu).
  - split; [rewrite He', Hy; done|]. split; [|discriminate].
    intros _. split; [|done]. rewrite Hy, <- He. apply Hlt. rewrite <- Hb. done.
  - split; [rewrite He', Hy; done|]. split; [discriminate|]. done.
Qed.

End SolverClaims.

(** C3, counterexample: with an empty active set and a solution sink that
    accepts every solution, [Solve] returns [false] after the exception
    of [J.t() * J], without calling [SetSolution]. It does not return
    [true]. *)
Lemma C3_counterexample :
  m_varIdx empty_active_problem = [] /\ SetSolution empty_active_problem [1%Z] = true /\
  Solve demo_lm empty_active_problem [1%Z] = (Returned false, [EvErrException]).
Proof. split; [|split]; reflexivity. Qed.

Lemma C3_witness :
  m_varIdx empty_active_problem = [] /\ s_ltb s_one (m_eta demo_lm) = true /\
  Solve demo_lm empty_active_problem [1%Z] = (Returned false, [EvErrException]).
Proof.
  split; [reflexivity|]. split; [reflexivity|].
  apply C3_empty_active_set; reflexivity.
Defined.

Lemma C5_witness :
  exists st' log',
    inner_loop demo_lm curve_problem [[1%Z]] [(-1)%Z] 4 curve_state false 0 [] =
      InnerDone st' true 2 log' /\
    (1 <= 2 /\
     lambda st' = s_div (Nat.iter (2 - 1) (fun l => s_mul l (m_eta demo_lm)) (lambda curve_state))
                        (m_eta demo_lm)).
Proof.
  exists {| lambda := 1%Z; converged := false; derr := [3%Z]; x_best := [3%Z];
            y_best := [0%Z]; e_best := 0%Z; updates := 1 |}, [EvStep [2%Z]; EvStep [3%Z]].
  split; [reflexivity|].
  apply (C5_lambda_schedule demo_lm curve_problem [[1%Z]] [(-1)%Z] 4 curve_state []
           _ _ [EvStep [2%Z]; EvStep [3%Z]]).
  reflexivity.
Defined.

Lemma C6_witness :
  exists st' delta lg,
    trial demo_lm curve_problem [[1%Z]] [(-1)%Z] curve_state 0 = TrialDone st' false 1 delta lg /\
    (length (derr st') = updates st' /\
     (converged st' = true <->
        maxCount demo_lm <= updates st' \/
        (1 < updates st' /\ exists d0 dprev dlast, derr st' = d0 ++ [dprev; dlast] /\
                             s_ltb (s_div dlast dprev) (epsilon demo_lm) = true) \/
        (1 < updates st' /\
         s_ltb (s_div (norm delta) (norm (x_best st'))) (epsilon demo_lm) = true) \/
        (false = false /\ (s_eqb (lambda st') s_zero = true \/ maxCount demo_lm <= 1)))).
Proof.
  exists {| lambda := 2%Z; converged := false; derr := []; x_best := [0%Z];
            y_best := [(-3)%Z]; e_best := 3%Z; updates := 0 |}, [2%Z], [EvStep [2%Z]].
  split; [reflexivity|].
  apply (C6_convergence_test demo_lm curve_problem [[1%Z]] [(-1)%Z] curve_state 0
           _ _ _ _ [EvStep [2%Z]]); [reflexivity|reflexivity|reflexivity].
Defined.

Lemma C8_witness :
  exists st' delta lg,
    trial demo_lm curve_problem [[1%Z]] [(-1)%Z] (set_lambda_y curve_state 2%Z [(-3)%Z]) 0 =
      TrialDone st' true 1 delta lg /\
    (e_best st' = rms (y_best st') /\
     (true = true -> s_ltb (rms (y_best st')) (rms (y_best (set_lambda_y curve_state 2%Z [(-3)%Z]))) = true /\
                     updates st' = S (updates (set_lambda_y curve_state 2%Z [(-3)%Z]))) /\
     (true = false -> x_best st' = x_best (set_lambda_y curve_state 2%Z [(-3)%Z]) /\
                      y_best st' = y_best (set_lambda_y curve_state 2%Z [(-3)%Z]) /\
                      e_best st' = e_best (set_lambda_y curve_state 2%Z [(-3)%Z]))).
Proof.
  exists {| lambda := 1%Z; converged := false; derr := [3%Z]; x_best := [3%Z];
            y_best := [0%Z]; e_best := 0%Z; updates := 1 |}, [3%Z], [EvStep [3%Z]].
  split; [reflexivity|].
  apply (C8_best_improves demo_lm curve_problem [[1%Z]] [(-1)%Z]
           (set_lambda_y curve_state 2%Z [(-3)%Z]) 0 _ true 1 [3%Z] [EvStep [3%Z]]).
  - intros a c Hac. simpl in *. apply Z.ltb_lt in Hac. apply Z.ltb_lt. lia.
  - reflexivity.
  - reflexivity.
Defined.

Lemma C7_witness :
  Solve demo_lm constant_problem [1%Z] =
    (Returned false, [EvHessianDiag [0%Z]; EvStep [0%Z]; EvWarnNotResponsive 0; EvErrIllPosed]) /\
  (Returned false = Returned false /\
   (forall x, ~ In (EvSetSolution x)
                  [EvHessianDiag [0%Z]; EvStep [0%Z]; EvWarnNotResponsive 0; EvErrIllPosed]) /\
   exists pre ws,
     [EvHessianDiag [0%Z]; EvStep [0%Z]; EvWarnNotResponsive 0; EvErrIllPosed] =
       pre ++ map EvWarnNotResponsive ws ++ [EvErrIllPosed] /\
     forall hd d z,
       In (EvHessianDiag hd) [EvHessianDiag [0%Z]; EvStep [0%Z]; EvWarnNotResponsive 0; EvErrIllPosed] ->
       hd !! d = Some z -> s_eqb z s_zero = true -> In d ws).
Proof.
  split; [reflexivity|].
  apply (C7_ill_posed demo_lm constant_problem [1%Z]).
  - intros A. reflexivity.
  - simpl. lia.
  - intros v Hv. simpl in *. destruct Hv as [<-|[]]. lia.
  - reflexivity.
  - left. exists [0%Z], 0, 0%Z. split; [left; reflexivity|]. split; reflexivity.
Defined.

(** * Further properties of the code *)

(** ** The Jacobian engine and the update *)

Section JacobianFacts.
Context {R : Type} `{Scalar R}.

Lemma column_write_no_throw (p : LeastSquaresProblem R) x y v :
  column_write p x y v <> Throw.
Proof.
  unfold column_write. destruct (x !! v); [|discriminate].
  destruct (mat_sub _ _); [|discriminate|discriminate]. destruct (_ =? _); discriminate.
Qed.

Lemma column_write_crash (p : LeastSquaresProblem R) x y v :
  column_write p x y v = Crash <->
  match x !! v with
  | None => true
  | Some _ =>
      match mat_sub (evaluate p (alter (fun a => s_add a (m_diffStep p)) v x)) y with
      | Ok _ => false
      | _ => true
      end
  end = true.
Proof.
  unfold column_write. destruct (x !! v) as [a|] eqn:Ha; [|done].
  rewrite <- (alter_as_insert (fun a => s_add a (m_diffStep p)) _ _ _ Ha).
  destruct (mat_sub _ _); [|done|done]. cbv zeta. destruct (_ =? m_conds p); split; done.
Qed.

Lemma DiffThread_crash (p : LeastSquaresProblem R) J L :
  (exists s, In s L /\ column_write p (sl_x s) (sl_y s) (sl_var s) = Crash) ->
  DiffThread p J L = Crash.
Proof.
  revert J. induction L as [|s0 L IH]; intros J [s [Hin Hs]]; [destruct Hin|].
  simpl. rewrite diff_slice_column_write.
  destruct (column_write p (sl_x s0) (sl_y s0) (sl_var s0)) as [w| |] eqn:E.
  - simpl. apply IH. destruct Hin as [<-|Hin]; [congruence|eauto].
  - exfalso. eapply column_write_no_throw. eauto.
  - done.
Qed.

Lemma make_slices_throw (p : LeastSquaresProblem R) x y vs i acc :
  m_diffThreads p <> 0 ->
  existsb (fun v => mat_cols (m_jacobianPattern p) <=? v) vs = true ->
  make_slices p x y true vs i acc = Throw.
Proof.
  intros HT. revert i acc. induction vs as [|var vs IH]; intros i acc Hex; [discriminate|].
  simpl. rewrite (proj2 (Nat.eqb_neq _ _) HT). simpl in Hex.
  unfold mat_col. destruct (mat_cols (m_jacobianPattern p) <=? var) eqn:E.
  - apply Nat.leb_le in E. rewrite (proj2 (Nat.ltb_ge _ _) E). done.
  - apply Nat.leb_gt in E. rewrite (proj2 (Nat.ltb_lt _ _) E). simpl. apply IH. done.
Qed.

Lemma ComputeJacobian_cases (p : LeastSquaresProblem R) x y :
  m_diffThreads p <> 0 ->
  ComputeJacobian p x y =
    (let y' := match y with [] => evaluate p x | _ => y end in
     if negb (mat_empty (m_jacobianPattern p)) &&
        existsb (fun v => mat_cols (m_jacobianPattern p) <=? v) (m_varIdx p)
     then Throw
     else if existsb (fun v => match x !! v with
                               | None => true
                               | Some _ =>
                                   match mat_sub (evaluate p
                                           (alter (fun a => s_add a (m_diffStep p)) v x)) y' with
                                   | Ok _ => false
                                   | _ => true
                                   end
                               end) (m_varIdx p)
     then Crash
     else Ok (p, map (guarded_column p x y') (m_varIdx p), y')).
Proof.
  intros HT. cbv zeta.
  set (y0 := match y with [] => evaluate p x | _ => y end).
  set (crash := fun v => match x !! v with
                         | None => true
                         | Some _ =>
                             match mat_sub (evaluate p
                                     (alter (fun a => s_add a (m_diffStep p)) v x)) y0 with
                             | Ok _ => false
                             | _ => true
                             end
                         end).
  destruct (negb (mat_empty (m_jacobianPattern p)) &&
            existsb (fun v => mat_cols (m_jacobianPattern p) <=? v) (m_varIdx p)) eqn:Em.
  - apply andb_true_iff in Em as [Hm Hex].
    unfold ComputeJacobian. fold y0. rewrite Hm, make_slices_throw by done. done.
  - destruct (make_slices_succeeds p x y0 (negb (mat_empty (m_jacobianPattern p)))
                (m_varIdx p) 0 (replicate (m_diffThreads p) [])) as [ths Ems].
    { intros _. done. }
    { intros Hm v Hv. rewrite Hm in Em. simpl in Em.
      destruct (mat_cols (m_jacobianPattern p) <=? v) eqn:E.
      - exfalso. assert (Htrue : existsb (fun v => mat_cols (m_jacobianPattern p) <=? v)
                                   (m_varIdx p) = true)
          by (apply existsb_exists; eauto).
        congruence.
      - apply Nat.leb_gt. done. }
    destruct (make_slices_spec _ _ _ _ _ _ _ _ Ems) as [_ [Hin Hcov]];
      [by rewrite length_replicate|].
    rewrite concat_replicate_nil in Hin.
    set (J0 := replicate (length (m_varIdx p)) (replicate (m_conds p) s_zero)).
    assert (HCJ : ComputeJacobian p x y = J' <-- DiffThread p J0 (concat ths) ; Ok (p, J', y0)).
    { unfold ComputeJacobian. fold y0. rewrite Ems. simpl. rewrite run_threads_concat. done. }
    rewrite HCJ.
    destruct (existsb crash (m_varIdx p)) eqn:Ec.
    + apply existsb_exists in Ec as [v [Hv Hcv]].
      apply list_elem_of_In, list_elem_of_lookup_1 in Hv as [j Hj].
      destruct (Hcov j v Hj) as [t [Ht Hct]].
      rewrite DiffThread_crash; [done|]. exists t. split; [done|].
      destruct (Hin t Ht) as [[]|[j' [Hj' [Hc [Hx Hy]]]]].
      simpl in Hct, Hc. assert (j' = j) as -> by lia. rewrite Hj in Hj'.
      injection Hj' as <-. rewrite Hx, Hy. apply column_write_crash. done.
    + destruct (DiffThread_succeeds p J0 (concat ths)) as [J1 Ed].
      { intros t Ht. destruct (Hin t Ht) as [[]|[j [Hj [_ [-> ->]]]]].
        assert (Hv : In (sl_var t) (m_varIdx p))
          by (apply list_elem_of_In; eapply list_elem_of_lookup_2; eauto).
        destruct (column_write p x y0 (sl_var t)) as [w| |] eqn:Ew; [eauto| |].
        - exfalso. eapply column_write_no_throw. eauto.
        - exfalso. apply column_write_crash in Ew.
          assert (Htrue : existsb crash (m_varIdx p) = true)
            by (apply existsb_exists; eauto).
          congruence. }
      rewrite Ed. simpl.
      assert (Hok : ComputeJacobian p x y = Ok (p, J1, y0)) by (rewrite HCJ, Ed; done).
      destruct (ComputeJacobian_ok _ _ _ _ _ _ Hok) as [_ [_ HJ]]. rewrite HJ. done.
Qed.

(** [ComputeJacobian] with at least one worker thread: it throws when the
    pattern is not empty and some active index has no column in it; it
    otherwise crashes when a perturbed index is out of [x] or the
    subtraction [cv::Mat(f(x + h e_v)) - y] is refused (an empty operand,
    or sizes that differ with neither operand of size 1 or 4); it
    otherwise returns the guarded finite-difference columns. None of this
    depends on the number of threads. *)
Theorem ComputeJacobian_outcome (p : LeastSquaresProblem R) x y :
  m_diffThreads p <> 0 ->
  ComputeJacobian p x y =
    (let y' := match y with [] => evaluate p x | _ => y end in
     if negb (mat_empty (m_jacobianPattern p)) &&
        existsb (fun v => mat_cols (m_jacobianPattern p) <=? v) (m_varIdx p)
     then Throw
     else if existsb (fun v => match x !! v with
                               | None => true
                               | Some _ =>
                                   match mat_sub (evaluate p
                                           (alter (fun a => s_add a (m_diffStep p)) v x)) y' with
                                   | Ok _ => false
                                   | _ => true
                                   end
                               end) (m_varIdx p)
     then Crash
     else Ok (p, map (guarded_column p x y') (m_varIdx p), y')).
Proof. apply ComputeJacobian_cases. Qed.

(** [ComputeJacobian] with [m_diffThreads = 0]: the empty Jacobian for an
    empty active set, a crash ([i % 0]) otherwise. *)
Theorem ComputeJacobian_zero_threads (p : LeastSquaresProblem R) x y :
  m_diffThreads p = 0 ->
  ComputeJacobian p x y =
    match m_varIdx p with
    | [] => Ok (p, [], match y with [] => evaluate p x | _ => y end)
    | _ :: _ => Crash
    end.
Proof.
  intros HT. unfold ComputeJacobian. destruct (m_varIdx p) as [|v vs]; simpl.
  - rewrite HT. done.
  - rewrite HT. done.
Qed.

Lemma guarded_column_length (p : LeastSquaresProblem R) x y v :
  length (guarded_column p x y v) = m_conds p.
Proof.
  unfold guarded_column. cbv zeta.
  destruct (mat_sub _ _); [|apply length_replicate|apply length_replicate].
  destruct (length _ =? m_conds p) eqn:E.
  - apply Nat.eqb_eq. done.
  - apply length_replicate.
Qed.

(** A Jacobian returned has one column per active index, each of
    [m_conds] entries. *)
Theorem ComputeJacobian_shape (p : LeastSquaresProblem R) x y p' J y' :
  ComputeJacobian p x y = Ok (p', J, y') ->
  length J = length (m_varIdx p) /\ Forall (fun col => length col = m_conds p) J.
Proof.
  intros Hok. destruct (ComputeJacobian_ok _ _ _ _ _ _ Hok) as [_ [_ ->]].
  rewrite length_map. split; [done|].
  apply Forall_forall. intros c Hc. apply list_elem_of_In, in_map_iff in Hc as [v [<- _]].
  apply guarded_column_length.
Qed.

(** [ApplyUpdate]: every active position [j] adds [delta[j]] to
    coordinate [m_varIdx[j]], in the order of the active set. *)
Lemma add_deltas_accumulate (x : list R) vs delta k x' :
  add_deltas x vs delta k = Ok x' ->
  forall i, x' !! i =
    (fun a => foldl s_add a (map snd (List.filter (fun vd => fst vd =? i)
                                        (zip vs (drop k delta))))) <$> x !! i.
Proof.
  revert x k. induction vs as [|var vs IH]; intros x k Hr i; simpl in Hr.
  - injection Hr as <-. simpl. destruct (x !! i); done.
  - destruct (x !! var) as [a|] eqn:Ha; [|discriminate].
    destruct (delta !! k) as [d|] eqn:Hd; [|discriminate].
    rewrite (IH _ _ Hr i). rewrite (drop_S _ _ _ Hd). simpl.
    destruct (decide (var = i)) as [<-|Hne].
    + rewrite Nat.eqb_refl. simpl. rewrite list_lookup_insert_eq by (eapply lookup_lt_Some; eauto).
      rewrite Ha. done.
    + rewrite (proj2 (Nat.eqb_neq _ _) Hne). rewrite list_lookup_insert_ne by done. done.
Qed.

Lemma add_deltas_ok_inv (x : list R) vs delta k x' :
  add_deltas x vs delta k = Ok x' ->
  length vs <= length delta - k /\ forall v, In v vs -> v < length x.
Proof.
  revert x k. induction vs as [|var vs IH]; intros x k Hr; simpl in Hr.
  - simpl; split; [lia|]. intros v [].
  - destruct (x !! var) as [a|] eqn:Ha; [|discriminate].
    destruct (delta !! k) as [d|] eqn:Hd; [|discriminate].
    destruct (IH _ _ Hr) as [Hl Hv]. rewrite length_insert in Hv.
    apply lookup_lt_Some in Ha. apply lookup_lt_Some in Hd. simpl. split; [lia|].
    intros v [<-|Hin]; auto.
Qed.

Lemma add_deltas_no_throw (x : list R) vs delta k : add_deltas x vs delta k <> Throw.
Proof.
  revert x k. induction vs as [|var vs IH]; intros x k; simpl; [discriminate|].
  destruct (x !! var), (delta !! k); try discriminate. apply IH.
Qed.

End JacobianFacts.

(** ** The solver loops *)

Section SolverFacts.
Context {R : Type} `{Scalar R} `{MatInv R}.

Ltac split_orb_false :=
  repeat match goal with
         | Hf : (_ || _) = false |- _ => apply orb_false_iff in Hf as [? ?]
         end.

Lemma inner_loop_stop alg p Hm D fuel (st : lm_state R) k L :
  inner_loop alg p Hm D fuel st true k L = InnerDone st true k L.
Proof. destruct fuel; reflexivity. Qed.

Lemma inner_loop_exit alg p Hm D fuel (st : lm_state R) b k L st' b' t' L' :
  inner_loop alg p Hm D fuel st b k L = InnerDone st' b' t' L' ->
  b' = true \/ converged st' = true.
Proof.
  revert st b k L. induction fuel as [|fuel IH]; intros st b k L; simpl;
    destruct (negb b && negb (converged st)) eqn:Eg; try discriminate;
    try (intros [= <- <- _ _]; apply andb_false_iff in Eg as [Eb|Ec];
         [apply negb_false_iff in Eb; auto|apply negb_false_iff in Ec; auto]).
  destruct (trial alg p Hm D st k) as [st1 b1 t1 delta lg| | |]; try discriminate.
  apply IH.
Qed.

Lemma inner_loop_accept_updates alg p Hm D fuel (st : lm_state R) k L st' t L' :
  inner_loop alg p Hm D fuel st false k L = InnerDone st' true t L' ->
  updates st' = S (updates st) /\
  (converged st' = false -> S (updates st) < maxCount alg).
Proof.
  revert st k L. induction fuel as [|fuel IH]; intros st k L; simpl;
    destruct (converged st); simpl; try congruence.
  destruct (trial alg p Hm D st k) as [st1 b1 t1 delta lg| | |] eqn:Et; try discriminate.
  destruct (trial_done_inv _ _ _ _ _ _ _ _ _ _ _ Et)
    as (_ & _ & _ & _ & _ & x_try & _ & _ & Hb & Hconv).
  destruct b1.
  - rewrite inner_loop_stop. intros [= <- _ _].
    destruct Hb as (_ & _ & _ & _ & _ & Hu). split; [done|].
    intros Hc. rewrite Hc in Hconv. symmetry in Hconv. split_orb_false.
    rewrite Hu in *. apply Nat.leb_gt. done.
  - destruct Hb as (_ & _ & _ & _ & _ & Hu). rewrite <- Hu. apply IH.
Qed.

Lemma inner_loop_fuel alg p Hm D fuel (st : lm_state R) b k L L' :
  1 <= fuel -> maxCount alg <= k + fuel ->
  inner_loop alg p Hm D fuel st b k L <> InnerOutOfFuel L'.
Proof.
  revert st b k L. induction fuel as [|fuel IH]; intros st b k L H1 Hk; [lia|]. simpl.
  destruct (negb b && negb (converged st)) eqn:Eg; [|discriminate].
  destruct (trial alg p Hm D st k) as [st1 b1 t1 delta lg| | |] eqn:Et; try discriminate.
  destruct (trial_done_inv _ _ _ _ _ _ _ _ _ _ _ Et)
    as (_ & -> & _ & _ & _ & x_try & _ & _ & _ & Hconv).
  destruct (negb b1 && negb (converged st1)) eqn:Eg1.
  - apply andb_true_iff in Eg1 as [Eb1 Ec1]. apply negb_true_iff in Eb1, Ec1.
    rewrite Ec1, Eb1 in Hconv. symmetry in Hconv. split_orb_false.
    simpl in *. split_orb_false.
    match goal with Hm : (maxCount alg <=? S k) = false |- _ => apply Nat.leb_gt in Hm end.
    apply IH; lia.
  - destruct fuel; simpl; rewrite Eg1; discriminate.
Qed.

Lemma inner_loop_mono alg p Hm D fuel fuel' (st : lm_state R) b k L r :
  inner_loop alg p Hm D fuel st b k L = r ->
  (forall L', r <> InnerOutOfFuel L') -> fuel <= fuel' ->
  inner_loop alg p Hm D fuel' st b k L = r.
Proof.
  revert fuel' st b k L. induction fuel as [|fuel IH]; intros fuel' st b k L Hr Hno Hle.
  - simpl in Hr. destruct (negb b && negb (converged st)) eqn:Eg.
    + subst r. exfalso. eapply Hno. done.
    + destruct fuel'; simpl; rewrite Eg; done.
  - destruct fuel' as [|fuel']; [lia|]. simpl in Hr |- *.
    destruct (negb b && negb (converged st)); [|done].
    destruct (trial alg p Hm D st k); try done.
    apply IH; [done|done|lia].
Qed.

Lemma outer_loop_fuel alg p fuel ifuel (st : lm_state R) L :
  1 <= ifuel -> maxCount alg <= ifuel ->
  converged st = true \/ (1 <= fuel /\ maxCount alg <= updates st + fuel) ->
  fst (outer_loop alg p fuel ifuel st L) <> OutOfFuel.
Proof.
  intros Hi1 Hi. revert st L. induction fuel as [|fuel IH]; intros st L Hinv.
  - destruct Hinv as [Hc|]; [|lia]. rewrite outer_loop_converged by done.
    unfold finish. destruct (SetSolution p (x_best st)); discriminate.
  - simpl. destruct (converged st) eqn:Ec.
    + unfold finish. destruct (SetSolution p (x_best st)); discriminate.
    + destruct Hinv as [|[_ Hu]]; [congruence|].
      destruct (ComputeJacobian p (x_best st) (y_best st)) as [[[p' J] y']| |];
        try discriminate.
      destruct (hessian_gradient_cases J y') as [EHD|EHD]; rewrite EHD; [|discriminate].
      set (st1 := set_lambda_y st _ y').
      destruct (inner_loop alg p (gram J) (jt_mul J y') ifuel st1 false 0 _)
        as [st' b' t' L'|L'|L'|L'|L'] eqn:Ein; try discriminate.
      * apply IH. destruct (inner_loop_exit _ _ _ _ _ _ _ _ _ _ _ _ _ Ein) as [->|Hc'];
          [|auto].
        destruct (converged st') eqn:Ec'; [auto|right].
        destruct (inner_loop_accept_updates _ _ _ _ _ _ _ _ _ _ _ Ein) as [Hu' Hlt].
        specialize (Hlt Ec'). simpl in Hu', Hlt. lia.
      * exfalso. eapply inner_loop_fuel; [exact Hi1| |exact Ein]. lia.
Qed.

Lemma outer_loop_mono alg p fuel fuel' ifuel ifuel' (st : lm_state R) L r L' :
  outer_loop alg p fuel ifuel st L = (r, L') -> r <> OutOfFuel ->
  fuel <= fuel' -> ifuel <= ifuel' ->
  outer_loop alg p fuel' ifuel' st L = (r, L').
Proof.
  intros Hr Hno Hle Hile. revert fuel' st L Hr Hle.
  induction fuel as [|fuel IH]; intros fuel' st L Hr Hle.
  - simpl in Hr. destruct (converged st) eqn:Ec.
    + rewrite outer_loop_converged by done. done.
    + injection Hr as <- _. done.
  - destruct fuel' as [|fuel']; [lia|]. simpl in Hr |- *.
    destruct (converged st); [done|].
    destruct (ComputeJacobian p (x_best st) (y_best st)) as [[[p' J] y']| |]; try done.
    destruct (hessian_gradient_cases J y') as [EHD|EHD]; rewrite EHD in Hr |- *; [|done].
    destruct (inner_loop alg p (gram J) (jt_mul J y') ifuel _ false 0 _) eqn:Ein;
      [| | | |injection Hr as <- _; done];
      (rewrite (inner_loop_mono _ _ _ _ _ ifuel' _ _ _ _ _ Ein); [|discriminate|done]);
      try done.
    apply IH; [done|lia].
Qed.


Lemma inner_loop_log alg p Hm D fuel (st : lm_state R) b k L :
  match inner_loop alg p Hm D fuel st b k L with
  | InnerDone _ _ _ L' | InnerIll L' | InnerThrow L' | InnerCrash L' | InnerOutOfFuel L' =>
      exists S, L' = L ++ S /\ forall x, ~ In (EvSetSolution x) S
  end.
Proof.
  revert st b k L. induction fuel as [|fuel IH]; intros st b k L; simpl;
    destruct (negb b && negb (converged st));
    try (exists []; rewrite app_nil_r; split; [done|intros x []]).
  destruct (trial alg p Hm D st k) as [st1 b1 t1 delta lg|lg| |] eqn:Et;
    try (exists []; rewrite app_nil_r; split; [done|intros x []]).
  - specialize (IH st1 b1 t1 (L ++ lg)).
    destruct (trial_done_inv _ _ _ _ _ _ _ _ _ _ _ Et) as (_ & _ & -> & _).
    destruct (inner_loop alg p Hm D fuel st1 b1 t1 (L ++ [EvStep delta]));
      destruct IH as [S [-> HS]]; exists (EvStep delta :: S);
      (split; [by rewrite <- app_assoc|intros x [Hx|Hx]; [discriminate|exact (HS x Hx)]]).
  - destruct (trial_ill_inv _ _ _ _ _ _ _ Et) as [delta [-> _]].
    eexists. split; [done|]. intros x [Hx|Hx]; [discriminate|].
    apply in_app_or in Hx as [Hx|[Hx|[]]]; [|discriminate].
    apply in_map_iff in Hx as [d [? _]]. discriminate.
Qed.

Lemma finish_log p (st : lm_state R) L :
  (forall x, ~ In (EvSetSolution x) L) ->
  exists x, (fst (finish p st L) = Returned true /\ snd (finish p st L) = L ++ [EvSetSolution x] /\
             SetSolution p x = true) \/
            (fst (finish p st L) = Returned false /\
             snd (finish p st L) = L ++ [EvSetSolution x; EvErrSetSolution] /\
             SetSolution p x = false).
Proof.
  intros _. exists (x_best st). unfold finish.
  destruct (SetSolution p (x_best st)); [left|right]; done.
Qed.

Lemma outer_loop_log alg p fuel ifuel (st : lm_state R) L r L' :
  (forall x, ~ In (EvSetSolution x) L) ->
  outer_loop alg p fuel ifuel st L = (r, L') ->
  (r <> Returned true /\ forall x, ~ In (EvSetSolution x) L') \/
  (exists pre x, (forall y, ~ In (EvSetSolution y) pre) /\
     ((L' = pre ++ [EvSetSolution x] /\ SetSolution p x = true /\ r = Returned true) \/
      (L' = pre ++ [EvSetSolution x; EvErrSetSolution] /\ SetSolution p x = false /\
       r = Returned false))).
Proof.
  assert (Hfin : forall st L, (forall x, ~ In (EvSetSolution x) L) ->
            finish p st L = (r, L') ->
            exists pre x, (forall y, ~ In (EvSetSolution y) pre) /\
              ((L' = pre ++ [EvSetSolution x] /\ SetSolution p x = true /\ r = Returned true) \/
               (L' = pre ++ [EvSetSolution x; EvErrSetSolution] /\ SetSolution p x = false /\
                r = Returned false))).
  { intros st0 L0 HL Hf. exists L0, (x_best st0). split; [done|]. unfold finish in Hf.
    destruct (SetSolution p (x_best st0)); injection Hf as <- <-; [left|right]; done. }
  revert st L. induction fuel as [|fuel IH]; intros st L HL Hr; simpl in Hr;
    destruct (converged st); try (right; exact (Hfin _ _ HL Hr)).
  - injection Hr as <- <-. left. split; [discriminate|done].
  - destruct (ComputeJacobian p (x_best st) (y_best st)) as [[[p' J] y']| |].
    + destruct (hessian_gradient_cases J y') as [EHD|EHD]; rewrite EHD in Hr.
      2: { injection Hr as <- <-. left. split; [discriminate|].
           intros x Hx. apply in_app_or in Hx as [Hx|[Hx|[]]]; [exact (HL x Hx)|discriminate]. }
      set (L1 := L ++ [EvHessianDiag (mat_diag (gram J))]).
      assert (HL1 : forall x, ~ In (EvSetSolution x) L1).
      { intros x Hx. apply in_app_or in Hx as [Hx|[Hx|[]]]; [exact (HL x Hx)|discriminate]. }
      pose proof (inner_loop_log alg p (gram J) (jt_mul J y') ifuel
                    (set_lambda_y st (if s_ltb (lambda st) s_zero
                                      then cv_mean (mat_diag (gram J)) else lambda st) y')
                    false 0 L1) as Hlog.
      fold L1 in Hr.
      destruct (inner_loop _ _ _ _ _ _ _ _ L1);
        destruct Hlog as [S [-> HS]];
        assert (HLS : forall x, ~ In (EvSetSolution x) (L1 ++ S))
          by (intros x Hx; apply in_app_or in Hx as [Hx|Hx]; [exact (HL1 x Hx)|exact (HS x Hx)]).
      * exact (IH _ _ HLS Hr).
      * injection Hr as <- <-. left. split; [discriminate|done].
      * injection Hr as <- <-. left. split; [discriminate|].
        intros x Hx. apply in_app_or in Hx as [Hx|[Hx|[]]]; [exact (HLS x Hx)|discriminate].
      * injection Hr as <- <-. left. split; [discriminate|done].
      * injection Hr as <- <-. left. split; [discriminate|done].
    + injection Hr as <- <-. left. split; [discriminate|].
      intros x Hx. apply in_app_or in Hx as [Hx|[Hx|[]]]; [exact (HL x Hx)|discriminate].
    + injection Hr as <- <-. left. split; [discriminate|done].
Qed.

Lemma split_first {A} (P : A -> Prop) (pre pre0 post post0 : list A) a b :
  pre ++ a :: post = pre0 ++ b :: post0 -> P a ->
  (forall y, In y pre0 -> ~ P y) -> (forall y, In y post0 -> ~ P y) ->
  pre = pre0 /\ a = b /\ post = post0.
Proof.
  revert pre. induction pre0 as [|c pre0 IH]; intros pre Heq Ha Hpre Hpost.
  - destruct pre as [|d pre]; simpl in Heq; [injection Heq as -> ->; done|].
    injection Heq as -> Heq.
    exfalso. apply (Hpost a); [|done]. rewrite <- Heq. apply in_or_app. right. left. done.
  - destruct pre as [|d pre]; simpl in Heq; injection Heq as -> Heq.
    + exfalso. eapply Hpre; [left; reflexivity|eassumption].
    + destruct (IH pre Heq Ha) as (-> & -> & ->); [|done|done].
      intros y Hy. apply Hpre. right. done.
Qed.


Section BestSoFar.
Variables (alg : LevenbergMarquardtAlgorithm R) (p : LeastSquaresProblem R) (x0 : list R).
Hypothesis Htrans : forall a b c, s_ltb a b = true -> s_ltb b c = true -> s_ltb a c = true.
Hypothesis Hsub : forall a b, s_ltb s_zero (s_sub a b) = true -> s_ltb b a = true.

Lemma trial_best Hm D (st : lm_state R) k st' b t' delta lg :
  y_best st = evaluate p (x_best st) -> e_best st = rms (y_best st) ->
  (x_best st = x0 \/ s_ltb (e_best st) (rms (evaluate p x0)) = true) ->
  trial alg p Hm D st k = TrialDone st' b t' delta lg ->
  y_best st' = evaluate p (x_best st') /\ e_best st' = rms (y_best st') /\
  (x_best st' = x0 \/ s_ltb (e_best st') (rms (evaluate p x0)) = true).
Proof.
  intros Hy He Hx Et.
  destruct (trial_done_inv _ _ _ _ _ _ _ _ _ _ _ Et)
    as (_ & _ & _ & _ & _ & x_try & _ & Hb & Hst & _).
  destruct b.
  - destruct Hst as (_ & -> & -> & -> & _). split; [done|]. split; [done|]. right.
    symmetry in Hb. apply Hsub in Hb.
    destruct Hx as [Hx|Hx].
    + rewrite He, Hy, Hx in Hb. done.
    + eapply Htrans; eauto.
  - destruct Hst as (_ & -> & -> & -> & _). auto.
Qed.

Lemma inner_loop_best Hm D fuel (st : lm_state R) b k L st' b' t' L' :
  y_best st = evaluate p (x_best st) -> e_best st = rms (y_best st) ->
  (x_best st = x0 \/ s_ltb (e_best st) (rms (evaluate p x0)) = true) ->
  inner_loop alg p Hm D fuel st b k L = InnerDone st' b' t' L' ->
  y_best st' = evaluate p (x_best st') /\ e_best st' = rms (y_best st') /\
  (x_best st' = x0 \/ s_ltb (e_best st') (rms (evaluate p x0)) = true).
Proof.
  revert st b k L. induction fuel as [|fuel IH]; intros st b k L Hy He Hx; simpl;
    destruct (negb b && negb (converged st)); try discriminate;
    try (intros [= <- _ _ _]; auto).
  destruct (trial alg p Hm D st k) as [st1 b1 t1 delta lg| | |] eqn:Et; try discriminate.
  destruct (trial_best _ _ _ _ _ _ _ _ _ Hy He Hx Et) as (Hy1 & He1 & Hx1).
  apply IH; done.
Qed.

Lemma finish_best (st : lm_state R) L r L' :
  y_best st = evaluate p (x_best st) -> e_best st = rms (y_best st) ->
  (x_best st = x0 \/ s_ltb (e_best st) (rms (evaluate p x0)) = true) ->
  (forall x, In (EvSetSolution x) L ->
     x = x0 \/ s_ltb (rms (evaluate p x)) (rms (evaluate p x0)) = true) ->
  finish p st L = (r, L') ->
  forall x, In (EvSetSolution x) L' ->
    x = x0 \/ s_ltb (rms (evaluate p x)) (rms (evaluate p x0)) = true.
Proof.
  intros Hy He Hx HL Hr x Hin. unfold finish in Hr.
  assert (Hlast : forall S, (forall e, In e S -> e = EvErrSetSolution) ->
            In (EvSetSolution x) (L ++ EvSetSolution (x_best st) :: S) ->
            x = x0 \/ s_ltb (rms (evaluate p x)) (rms (evaluate p x0)) = true).
  { intros S HSe Hin'. apply in_app_or in Hin' as [Hin'|[Hin'|Hin']].
    - exact (HL x Hin').
    - injection Hin' as <-. rewrite <- Hy, <- He. done.
    - discriminate (HSe _ Hin'). }
  destruct (SetSolution p (x_best st)); injection Hr as _ <-; eapply Hlast; [|exact Hin| |exact Hin].
  - intros e [].
  - intros e [<-|[]]. done.
Qed.

Lemma outer_loop_best fuel ifuel (st : lm_state R) L r L' :
  y_best st = evaluate p (x_best st) -> e_best st = rms (y_best st) ->
  (x_best st = x0 \/ s_ltb (e_best st) (rms (evaluate p x0)) = true) ->
  (forall x, In (EvSetSolution x) L ->
     x = x0 \/ s_ltb (rms (evaluate p x)) (rms (evaluate p x0)) = true) ->
  outer_loop alg p fuel ifuel st L = (r, L') ->
  forall x, In (EvSetSolution x) L' ->
    x = x0 \/ s_ltb (rms (evaluate p x)) (rms (evaluate p x0)) = true.
Proof.
  revert st L. induction fuel as [|fuel IH]; intros st L Hy He Hx HL Hr; simpl in Hr;
    destruct (converged st) eqn:Ec.
  1, 3: exact (finish_best _ _ _ _ Hy He Hx HL Hr).
  - injection Hr as _ <-. done.
  - destruct (ComputeJacobian p (x_best st) (y_best st)) as [[[p' J] y']| |] eqn:Ecj.
    + destruct (ComputeJacobian_ok _ _ _ _ _ _ Ecj) as (_ & Hy' & _).
      assert (Hyy : y' = y_best st) by (rewrite Hy'; destruct (y_best st); congruence).
      clear Hy'. subst y'.
      destruct (hessian_gradient_cases J (y_best st)) as [EHD|EHD]; rewrite EHD in Hr.
      2: { injection Hr as _ <-. intros x Hin.
           apply in_app_or in Hin as [Hin|[Hin|[]]]; [exact (HL x Hin)|discriminate]. }
      set (st1 := set_lambda_y st (if s_ltb (lambda st) s_zero
                                   then cv_mean (mat_diag (gram J)) else lambda st) (y_best st)).
      set (L1 := L ++ [EvHessianDiag (mat_diag (gram J))]).
      pose proof (inner_loop_log alg p (gram J) (jt_mul J (y_best st)) ifuel st1 false 0 L1)
        as Hlog.
      fold st1 L1 in Hr.
      assert (HL1 : forall x, In (EvSetSolution x) L1 ->
                x = x0 \/ s_ltb (rms (evaluate p x)) (rms (evaluate p x0)) = true).
      { intros x Hin. apply in_app_or in Hin as [Hin|[Hin|[]]]; [exact (HL x Hin)|discriminate]. }
      destruct (inner_loop _ _ _ _ _ _ _ _ L1) as [st' b' t' L2|L2|L2|L2|L2] eqn:Ein;
        destruct Hlog as [S [-> HS]];
        assert (HLS : forall x, In (EvSetSolution x) (L1 ++ S) ->
                  x = x0 \/ s_ltb (rms (evaluate p x)) (rms (evaluate p x0)) = true)
          by (intros x Hin; apply in_app_or in Hin as [Hin|Hin];
              [exact (HL1 x Hin)|destruct (HS x Hin)]).
      * destruct (inner_loop_best _ _ _ st1 _ _ _ _ _ _ _ Hy He Hx Ein) as (Hy2 & He2 & Hx2).
        exact (IH _ _ Hy2 He2 Hx2 HLS Hr).
      * injection Hr as _ <-. done.
      * injection Hr as _ <-. intros x Hin.
        apply in_app_or in Hin as [Hin|[Hin|[]]]; [exact (HLS x Hin)|discriminate].
      * injection Hr as _ <-. done.
      * injection Hr as _ <-. done.
    + injection Hr as _ <-. intros x Hin.
      apply in_app_or in Hin as [Hin|[Hin|[]]]; [exact (HL x Hin)|discriminate].
    + injection Hr as _ <-. done.
Qed.

End BestSoFar.

End SolverFacts.

Section NoCrash.
Context {R : Type} `{Scalar R} `{MatInv R}.
Variables (alg : LevenbergMarquardtAlgorithm R) (p : LeastSquaresProblem R).
Hypothesis Hinv : forall A, length (mat_inv A) = length A.
Hypothesis Hf : forall x, length (evaluate p x) = m_conds p.
Hypothesis Hm0 : m_conds p <> 0.

Lemma ComputeJacobian_no_crash x y :
  m_diffThreads p <> 0 -> (forall v, In v (m_varIdx p) -> v < length x) ->
  length y = m_conds p -> ComputeJacobian p x y <> Crash.
Proof.
  intros HT Hv Hy. rewrite ComputeJacobian_cases by done. cbv zeta.
  destruct (_ && _); [discriminate|].
  replace (existsb _ (m_varIdx p)) with false; [discriminate|].
  symmetry. apply not_true_iff_false. intros Hex.
  apply existsb_exists in Hex as [v [Hin Hc]].
  destruct (lookup_lt_is_Some_2 x v (Hv v Hin)) as [a Ha]. rewrite Ha in Hc.
  assert (Hy0 : length (match y with [] => evaluate p x | _ => y end) = m_conds p)
    by (destruct y; [apply Hf|done]).
  rewrite mat_sub_same in Hc by (rewrite ?Hf, ?Hy0; done). discriminate.
Qed.

Lemma inner_loop_no_crash Hm D fuel (st : lm_state R) b k L :
  length Hm = length (m_varIdx p) -> length (m_varIdx p) <= length (x_best st) ->
  (forall v, In v (m_varIdx p) -> v < length (x_best st)) ->
  length (y_best st) = m_conds p ->
  match inner_loop alg p Hm D fuel st b k L with
  | InnerDone st' _ _ _ => length (x_best st') = length (x_best st) /\
                           length (y_best st') = m_conds p
  | InnerThrow _ | InnerCrash _ => False
  | InnerIll _ | InnerOutOfFuel _ => True
  end.
Proof.
  intros HHm. revert st b k L. induction fuel as [|fuel IH]; intros st b k L Hle Hlt Hy; simpl;
    destruct (negb b && negb (converged st)); try done.
  destruct (trial_runs alg p Hm D st k Hinv HHm Hle Hlt) as [Hnt Hnc].
  destruct (trial alg p Hm D st k) as [st1 b1 t1 delta lg| | |] eqn:Et; try done.
  destruct (trial_done_inv _ _ _ _ _ _ _ _ _ _ _ Et)
    as (_ & _ & _ & _ & _ & x_try & Eap & _ & Hb & _).
  assert (Hx1 : length (x_best st1) = length (x_best st) /\ length (y_best st1) = m_conds p).
  { destruct b1; destruct Hb as (_ & -> & -> & _).
    - split; [exact (ApplyUpdate_length _ _ _ _ Eap)|apply Hf].
    - done. }
  destruct Hx1 as [Hx1 Hy1].
  specialize (IH st1 b1 t1 (L ++ lg) ltac:(lia) ltac:(intros v Hv; rewrite Hx1; auto) Hy1).
  destruct (inner_loop alg p Hm D fuel st1 b1 t1 (L ++ lg)); try done.
  destruct IH as [-> ?]. done.
Qed.

Lemma outer_loop_no_crash fuel ifuel (st : lm_state R) L :
  m_diffThreads p <> 0 ->
  length (m_varIdx p) <= length (x_best st) ->
  (forall v, In v (m_varIdx p) -> v < length (x_best st)) ->
  length (y_best st) = m_conds p ->
  fst (outer_loop alg p fuel ifuel st L) <> Crashed.
Proof.
  intros HT. revert st L. induction fuel as [|fuel IH]; intros st L Hle Hlt Hy; simpl;
    destruct (converged st);
    try (unfold finish; destruct (SetSolution p (x_best st)); discriminate);
    try discriminate.
  destruct (ComputeJacobian p (x_best st) (y_best st)) as [[[p' J] y']| |] eqn:Ecj;
    try discriminate.
  2: { exfalso. exact (ComputeJacobian_no_crash _ _ HT Hlt Hy Ecj). }
  destruct (ComputeJacobian_ok _ _ _ _ _ _ Ecj) as (_ & Hy' & HJ).
  destruct (hessian_gradient_cases J y') as [EHD|EHD]; rewrite EHD; [|discriminate].
  assert (HHm : length (gram J) = length (m_varIdx p)).
  { unfold gram. rewrite length_map, HJ, length_map. done. }
  assert (Hy'' : length y' = m_conds p) by (rewrite Hy'; destruct (y_best st); [apply Hf|done]).
  pose proof (inner_loop_no_crash (gram J) (jt_mul J y') ifuel
                (set_lambda_y st (if s_ltb (lambda st) s_zero
                                  then cv_mean (mat_diag (gram J)) else lambda st) y')
                false 0 (L ++ [EvHessianDiag (mat_diag (gram J))]) HHm Hle Hlt Hy'') as Hin.
  destruct (inner_loop _ _ _ _ _ _ _ _ _); try done.
  simpl in Hin. destruct Hin as [Hx2 Hy2]. apply IH; [lia|intros v Hv; rewrite Hx2; auto|done].
Qed.

End NoCrash.

Section SolveFacts.
Context {R : Type} `{Scalar R} `{MatInv R}.

(** [ApplyUpdate] adds [delta[j]] to coordinate [m_varIdx[j]] for every
    [j], in order: an index listed twice receives both steps. *)
Theorem ApplyUpdate_accumulates (p : LeastSquaresProblem R) x0 delta x :
  ApplyUpdate p x0 delta = Ok x ->
  length x = length x0 /\
  forall i, x !! i =
    (fun a => foldl s_add a (map snd (List.filter (fun vd => fst vd =? i)
                                        (zip (m_varIdx p) delta)))) <$> x0 !! i.
Proof.
  intros Hok. split; [exact (ApplyUpdate_length _ _ _ _ Hok)|].
  unfold ApplyUpdate in Hok. destruct (length x0 <? length delta); [discriminate|].
  intros i. rewrite (add_deltas_accumulate _ _ _ _ _ Hok i), drop_0. done.
Qed.

(** [ApplyUpdate] never throws, and it succeeds exactly when [delta] is no
    longer than [x0], has an entry per active index, and every active index
    is inside [x0]. *)
Theorem ApplyUpdate_succeeds_iff (p : LeastSquaresProblem R) x0 delta :
  ApplyUpdate p x0 delta <> Throw /\
  ((exists x, ApplyUpdate p x0 delta = Ok x) <->
   length delta <= length x0 /\ length (m_varIdx p) <= length delta /\
   forall v, In v (m_varIdx p) -> v < length x0).
Proof.
  unfold ApplyUpdate. destruct (length x0 <? length delta) eqn:E.
  - apply Nat.ltb_lt in E. split; [discriminate|]. split; [intros [x Hx]; discriminate|lia].
  - apply Nat.ltb_ge in E. split; [apply add_deltas_no_throw|]. split.
    + intros [x Hx]. destruct (add_deltas_ok_inv _ _ _ _ _ Hx) as [Hl Hv].
      split; [done|]. split; [lia|done].
    + intros (_ & Hl & Hv). apply add_deltas_ok; [done|lia].
Qed.

(** A rejected [SetActiveVars] leaves the problem as it was; after an
    accepted one, [ApplyUpdate] succeeds on any [m_vars]-sized point with a
    step per active index. *)
Theorem SetActiveVars_ApplyUpdate (p : LeastSquaresProblem R) idx b p' :
  SetActiveVars p idx = (b, p') ->
  (b = false -> p' = p) /\
  (b = true -> forall x0 delta,
     length x0 = m_vars p -> length idx <= length delta -> length delta <= length x0 ->
     exists x, ApplyUpdate p' x0 delta = Ok x /\ length x = m_vars p).
Proof.
  unfold SetActiveVars. destruct (all_below (m_vars p) idx) eqn:E;
    intros [= <- <-]; split; try done.
  intros _ x0 delta Hx0 Hidx Hdelta.
  pose proof (proj1 (all_below_spec _ _) E) as Hall.
  destruct (ApplyUpdate_succeeds_iff (with_varIdx p idx) x0 delta) as [_ [_ Hok]].
  destruct Hok as [x Hx].
  { simpl. split; [done|]. split; [done|]. intros v Hv. rewrite Hx0. apply Hall; done. }
  exists x. split; [done|]. rewrite (ApplyUpdate_length _ _ _ _ Hx). done.
Qed.

(** [Solve] runs at most [max 1 maxCount] outer iterations of at most
    [max 1 maxCount] trials each, and always terminates. *)
Theorem Solve_iteration_bound (alg : LevenbergMarquardtAlgorithm R) (p : LeastSquaresProblem R) x0 :
  s_ltb s_one (m_eta alg) = true ->
  Solve alg p x0 =
    outer_loop alg p (max 1 (maxCount alg)) (max 1 (maxCount alg))
      {| lambda := m_lambda alg; converged := false; derr := []; x_best := x0;
         y_best := evaluate p x0; e_best := rms (evaluate p x0); updates := 0 |} [] /\
  fst (Solve alg p x0) <> OutOfFuel.
Proof.
  intros Heta.
  set (st0 := {| lambda := m_lambda alg; converged := false; derr := []; x_best := x0;
                 y_best := evaluate p x0; e_best := rms (evaluate p x0); updates := 0 |}).
  assert (Hb : fst (outer_loop alg p (max 1 (maxCount alg)) (max 1 (maxCount alg)) st0 [])
               <> OutOfFuel).
  { apply outer_loop_fuel; [lia|lia|]. right. simpl. lia. }
  assert (Heq : Solve alg p x0 =
                outer_loop alg p (max 1 (maxCount alg)) (max 1 (maxCount alg)) st0 []).
  { unfold Solve. rewrite Heta. simpl negb. cbv iota zeta. fold st0.
    destruct (outer_loop alg p (max 1 (maxCount alg)) (max 1 (maxCount alg)) st0 [])
      as [r L] eqn:Eo.
    apply (outer_loop_mono _ _ _ _ _ _ _ _ _ _ Eo); [done|lia|lia]. }
  split; [done|]. rewrite Heq. done.
Qed.

(** [SetSolution] is called at most once, as the last step of [Solve];
    [Solve] returns [true] exactly when that call succeeds. *)
Theorem Solve_SetSolution_last (alg : LevenbergMarquardtAlgorithm R) (p : LeastSquaresProblem R)
    x0 r L :
  Solve alg p x0 = (r, L) ->
  (r = Returned true <-> exists pre x, L = pre ++ [EvSetSolution x] /\ SetSolution p x = true) /\
  (forall pre x post, L = pre ++ EvSetSolution x :: post ->
     (forall y, ~ In (EvSetSolution y) pre) /\
     ((post = [] /\ SetSolution p x = true /\ r = Returned true) \/
      (post = [EvErrSetSolution] /\ SetSolution p x = false /\ r = Returned false))).
Proof.
  intros HS.
  assert (Hcases :
    (r <> Returned true /\ forall x, ~ In (EvSetSolution x) L) \/
    (exists pre x, (forall y, ~ In (EvSetSolution y) pre) /\
       ((L = pre ++ [EvSetSolution x] /\ SetSolution p x = true /\ r = Returned true) \/
        (L = pre ++ [EvSetSolution x; EvErrSetSolution] /\ SetSolution p x = false /\
         r = Returned false)))).
  { unfold Solve in HS. destruct (negb (s_ltb s_one (m_eta alg))); cbv iota zeta in HS.
    - injection HS as <- <-. left. split; [discriminate|intros x []].
    - exact (outer_loop_log _ _ _ _ _ _ _ _ (fun x (Hx : In _ []) => Hx) HS). }
  assert (Hpost : forall pre x post, L = pre ++ EvSetSolution x :: post ->
     (forall y, ~ In (EvSetSolution y) pre) /\
     ((post = [] /\ SetSolution p x = true /\ r = Returned true) \/
      (post = [EvErrSetSolution] /\ SetSolution p x = false /\ r = Returned false))).
  { intros pre x post HL.
    destruct Hcases as [[_ Hno]|[pre0 [x0' [Hpre0 Hc]]]].
    - exfalso. apply (Hno x). rewrite HL. apply in_or_app. right. left. done.
    - set (P := fun e : event R => exists y, e = EvSetSolution y).
      destruct Hc as [(HL0 & Hs & Hr)|(HL0 & Hs & Hr)]; rewrite HL0 in HL.
      + destruct (split_first P pre pre0 post [] (EvSetSolution x) (EvSetSolution x0'))
          as (-> & Hx & ->).
        * symmetry. exact HL.
        * exists x. done.
        * intros y Hy [z ->]. exact (Hpre0 z Hy).
        * intros y [].
        * injection Hx as <-. split; [done|]. left. done.
      + destruct (split_first P pre pre0 post [EvErrSetSolution] (EvSetSolution x)
                    (EvSetSolution x0')) as (-> & Hx & ->).
        * symmetry. exact HL.
        * exists x. done.
        * intros y Hy [z ->]. exact (Hpre0 z Hy).
        * intros y [<-|[]] [z Hz]. discriminate.
        * injection Hx as <-. split; [done|]. right. done. }
  split; [|exact Hpost].
  split.
  - intros ->. destruct Hcases as [[Hne _]|[pre [x [_ [(HL & Hs & _)|(_ & _ & Hr)]]]]];
      [done|eauto|discriminate].
  - intros [pre [x [HL _]]]. destruct (Hpost pre x [] HL) as [_ [(_ & _ & Hr)|([=] & _)]].
    done.
Qed.

(** The point passed to [SetSolution] is [x0] or has a smaller rms error
    than [x0], when [<] is transitive and [a - b > 0] means [b < a]. *)
Theorem Solve_never_worse (alg : LevenbergMarquardtAlgorithm R) (p : LeastSquaresProblem R)
    x0 r L x :
  (forall a b c, s_ltb a b = true -> s_ltb b c = true -> s_ltb a c = true) ->
  (forall a b, s_ltb s_zero (s_sub a b) = true -> s_ltb b a = true) ->
  Solve alg p x0 = (r, L) -> In (EvSetSolution x) L ->
  x = x0 \/ s_ltb (rms (evaluate p x)) (rms (evaluate p x0)) = true.
Proof.
  intros Htrans Hsub HS Hin. unfold Solve in HS.
  destruct (negb (s_ltb s_one (m_eta alg))); cbv iota zeta in HS.
  - injection HS as _ <-. destruct Hin.
  - eapply (outer_loop_best alg p x0 Htrans Hsub); [| | | |exact HS|exact Hin];
      simpl; auto.
Qed.

(** A non-empty Jacobian pattern with fewer columns than some active index
    makes [Solve] return [false] after logging the exception, before any
    trial and without calling [SetSolution]. *)
Theorem Solve_narrow_pattern (alg : LevenbergMarquardtAlgorithm R) (p : LeastSquaresProblem R) x0 :
  s_ltb s_one (m_eta alg) = true -> m_diffThreads p <> 0 ->
  mat_empty (m_jacobianPattern p) = false ->
  (exists v, In v (m_varIdx p) /\ mat_cols (m_jacobianPattern p) <= v) ->
  Solve alg p x0 = (Returned false, [EvErrException]).
Proof.
  intros Heta HT Hm [v [Hv Hle]].
  assert (HCJ : ComputeJacobian p x0 (evaluate p x0) = Throw).
  { unfold ComputeJacobian. rewrite Hm. simpl negb.
    rewrite make_slices_throw; [done|done|]. apply existsb_exists. exists v.
    split; [done|]. apply Nat.leb_le. done. }
  unfold Solve. rewrite Heta. simpl negb. cbv iota zeta.
  cbn [outer_loop converged x_best y_best]. rewrite HCJ. done.
Qed.

End SolveFacts.

(** With a size-preserving [mat_inv], evaluations of [m_conds] entries,
    [m_conds] at least 1, threads, and active indices inside [x0], [Solve]
    returns a boolean: it neither crashes nor runs out of iterations. *)
Theorem Solve_returns {R : Type} `{Scalar R} `{MatInv R}
    (alg : LevenbergMarquardtAlgorithm R) (p : LeastSquaresProblem R) x0 :
  (forall A, length (mat_inv A) = length A) ->
  (forall x, length (evaluate p x) = m_conds p) -> m_conds p <> 0 ->
  s_ltb s_one (m_eta alg) = true -> m_diffThreads p <> 0 ->
  length (m_varIdx p) <= length x0 -> (forall v, In v (m_varIdx p) -> v < length x0) ->
  exists b, fst (Solve alg p x0) = Returned b.
Proof.
  intros Hinv Hf Hm0 Heta HT Hle Hlt. unfold Solve. rewrite Heta. simpl negb. cbv iota zeta.
  set (st0 := {| lambda := m_lambda alg; converged := false; derr := []; x_best := x0;
                 y_best := evaluate p x0; e_best := rms (evaluate p x0); updates := 0 |}).
  pose proof (outer_loop_fuel alg p (S (maxCount alg)) (S (maxCount alg)) st0 []
                ltac:(lia) ltac:(lia) ltac:(right; simpl; lia)) as Hfuel.
  pose proof (outer_loop_no_crash alg p Hinv Hf Hm0 (S (maxCount alg)) (S (maxCount alg)) st0 []
                HT Hle Hlt (Hf x0)) as Hcrash.
  destruct (fst (outer_loop _ _ _ _ st0 [])) as [b| |]; [eauto|done|done].
Qed.


Lemma ComputeJacobian_outcome_witness :
  (m_diffThreads demo_problem <> 0 /\
   ComputeJacobian demo_problem [1%Z; 2%Z] [] =
     Ok (demo_problem, [[3%Z; 1%Z]; [0%Z; 5%Z]], [3%Z; 11%Z])) /\
  (m_diffThreads broadcast_problem <> 0 /\
   ComputeJacobian broadcast_problem [0%Z] [7%Z] =
     Ok (broadcast_problem, [[(-6)%Z; (-6)%Z]], [7%Z])).
Proof.
  split; (split; [discriminate|]).
  - rewrite (ComputeJacobian_outcome demo_problem [1%Z; 2%Z] [] ltac:(discriminate)).
    vm_compute. reflexivity.
  - rewrite (ComputeJacobian_outcome broadcast_problem [0%Z] [7%Z] ltac:(discriminate)).
    vm_compute. reflexivity.
Defined.

Lemma ComputeJacobian_zero_threads_witness :
  m_diffThreads zero_thread_problem = 0 /\ ComputeJacobian zero_thread_problem [1%Z] [] = Crash.
Proof.
  split; [reflexivity|].
  rewrite (ComputeJacobian_zero_threads zero_thread_problem [1%Z] [] eq_refl). reflexivity.
Defined.

Lemma ComputeJacobian_shape_witness :
  ComputeJacobian demo_problem [1%Z; 2%Z] [] =
    Ok (demo_problem, [[3%Z; 1%Z]; [0%Z; 5%Z]], [3%Z; 11%Z]) /\
  length [[3%Z; 1%Z]; [0%Z; 5%Z]] = length (m_varIdx demo_problem) /\
  Forall (fun col => length col = m_conds demo_problem) [[3%Z; 1%Z]; [0%Z; 5%Z]].
Proof.
  assert (E : ComputeJacobian demo_problem [1%Z; 2%Z] [] =
                Ok (demo_problem, [[3%Z; 1%Z]; [0%Z; 5%Z]], [3%Z; 11%Z]))
    by (vm_compute; reflexivity).
  split; [exact E|].
  exact (ComputeJacobian_shape demo_problem [1%Z; 2%Z] [] demo_problem _ _ E).
Defined.

Lemma ApplyUpdate_accumulates_witness :
  ApplyUpdate (with_varIdx demo_problem [0; 0]) [1%Z; 2%Z] [10%Z; 20%Z] = Ok [31%Z; 2%Z] /\
  ([31%Z; 2%Z] : list Z) !! 0 = Some 31%Z.
Proof.
  assert (E : ApplyUpdate (with_varIdx demo_problem [0; 0]) [1%Z; 2%Z] [10%Z; 20%Z]
              = Ok [31%Z; 2%Z]) by reflexivity.
  split; [exact E|].
  destruct (ApplyUpdate_accumulates _ _ _ _ E) as [_ Hi]. rewrite (Hi 0). reflexivity.
Defined.

Lemma SetActiveVars_ApplyUpdate_witness :
  SetActiveVars demo_problem [1] = (true, with_varIdx demo_problem [1]) /\
  exists x, ApplyUpdate (with_varIdx demo_problem [1]) [1%Z; 2%Z] [7%Z] = Ok x /\
            length x = m_vars demo_problem.
Proof.
  assert (E : SetActiveVars demo_problem [1] = (true, with_varIdx demo_problem [1]))
    by reflexivity.
  split; [exact E|].
  apply (proj2 (SetActiveVars_ApplyUpdate _ _ _ _ E) eq_refl); simpl; lia.
Defined.

Lemma Solve_iteration_bound_witness :
  s_ltb s_one (m_eta undamped_lm) = true /\
  Solve undamped_lm identity_problem [4%Z] =
    outer_loop undamped_lm identity_problem 3 3
      {| lambda := 0%Z; converged := false; derr := []; x_best := [4%Z];
         y_best := [4%Z]; e_best := 4%Z; updates := 0 |} [].
Proof.
  split; [reflexivity|].
  exact (proj1 (Solve_iteration_bound undamped_lm identity_problem [4%Z] eq_refl)).
Defined.

Lemma Solve_SetSolution_last_witness :
  Solve undamped_lm identity_problem [4%Z] =
    (Returned true, [EvHessianDiag [1%Z]; EvStep [(-4)%Z]; EvHessianDiag [1%Z];
                     EvStep [0%Z]; EvSetSolution [0%Z]]) /\
  exists pre x, [EvHessianDiag [1%Z]; EvStep [(-4)%Z]; EvHessianDiag [1%Z];
                 EvStep [0%Z]; EvSetSolution [0%Z]] = pre ++ [EvSetSolution x] /\
                SetSolution identity_problem x = true.
Proof.
  assert (E : Solve undamped_lm identity_problem [4%Z] =
    (Returned true, [EvHessianDiag [1%Z]; EvStep [(-4)%Z]; EvHessianDiag [1%Z];
                     EvStep [0%Z]; EvSetSolution [0%Z]])) by (vm_compute; reflexivity).
  split; [exact E|].
  exact (proj1 (proj1 (Solve_SetSolution_last _ _ _ _ _ E)) eq_refl).
Defined.

Lemma Solve_never_worse_witness :
  Solve undamped_lm identity_problem [4%Z] =
    (Returned true, [EvHessianDiag [1%Z]; EvStep [(-4)%Z]; EvHessianDiag [1%Z];
                     EvStep [0%Z]; EvSetSolution [0%Z]]) /\
  ([0%Z] = [4%Z] \/
   s_ltb (rms (evaluate identity_problem [0%Z])) (rms (evaluate identity_problem [4%Z])) = true).
Proof.
  assert (E : Solve undamped_lm identity_problem [4%Z] =
    (Returned true, [EvHessianDiag [1%Z]; EvStep [(-4)%Z]; EvHessianDiag [1%Z];
                     EvStep [0%Z]; EvSetSolution [0%Z]])) by (vm_compute; reflexivity).
  split; [exact E|].
  refine (Solve_never_worse undamped_lm identity_problem [4%Z] _ _ [0%Z] _ _ E _).
  - intros a b c Hab Hbc. simpl in *. apply Z.ltb_lt in Hab, Hbc. apply Z.ltb_lt. lia.
  - intros a b Hab. simpl in *. apply Z.ltb_lt in Hab. apply Z.ltb_lt. lia.
  - simpl. tauto.
Defined.

Lemma Solve_narrow_pattern_witness :
  Solve demo_lm narrow_pattern_problem [1%Z; 2%Z] = (Returned false, [EvErrException]).
Proof.
  apply Solve_narrow_pattern; [reflexivity|discriminate|reflexivity|].
  exists 1. simpl. split; [tauto|lia].
Defined.

Lemma Solve_returns_witness : exists b, fst (Solve demo_lm demo_problem [1%Z; 2%Z]) = Returned b.
Proof.
  apply Solve_returns; [intros A; reflexivity|intros x; reflexivity|discriminate|reflexivity|discriminate|
                         simpl; lia|].
  intros v Hv. simpl in Hv. simpl. lia.
Defined.
